(** * FormulaCorrection: the formula model and the matching engine of src/App.js

    A shallow embedding of the non-UI part of [src/App.js]:
    the class [AtomicFormula] (add, toFormulaString, parseFormulaString),
    the two loaders (handleFormulaFile with validateCSVStructure,
    handleCorrectionFile), the matching engine (applyCorrections) and the
    row construction of exportToCSV.

    Modelling conventions.
    - A JS string is a [string] of 8-bit code units.  The character classes
      of the regular expression ([A-Z], [a-z], \d) are ASCII-only in JS, so
      every other code unit is simply skipped by the scanner.
    - The atom counts are JS numbers that hold integers; they are modelled
      as [Z].  Reading, adding and printing are exact on the safe integers
      (magnitude at most 2^53 - 1), as in JS.  Beyond them the model keeps the
      exact integer where JS rounds to the nearest double (parseInt of a long
      digit run, a sum), and printing follows the layout of Number::toString:
      decimal digits below 10^21, exponent notation from 10^21 on.  The digits
      of the exponent notation are those of the integer; JS prints the shortest
      digits that identify the double, which are the same for 10^21 and other
      integers with few significant digits.  Facts that depend on the value of
      a count are therefore stated for safe integers.
    - A JS object used as a dictionary ([atoms], a CSV row) and the JS [Map]
      of the engine are [gmap string _]; [undefined] is [None].
    - React state is a record that the handlers transform. *)

From Stdlib Require Import ZArith Ascii String DecimalString DecimalZ DecimalPos DecimalFacts.
From stdpp Require Import gmap strings list fin_maps.

Local Open Scope Z_scope.

(** ** Characters and numbers *)

Module Chars.

Definition code (c : ascii) : N := N_of_ascii c.

(** [A-Z] *)
Definition isUpper (c : ascii) : bool := ((65 <=? code c) && (code c <=? 90))%N.
(** [a-z] *)
Definition isLower (c : ascii) : bool := ((97 <=? code c) && (code c <=? 122))%N.
(** \d *)
Definition isDigit (c : ascii) : bool := ((48 <=? code c) && (code c <=? 57))%N.
(** The white space removed by String.prototype.trim, among the code units
    below 256: TAB, LF, VT, FF, CR, SPACE and NBSP. *)
Definition isSpace (c : ascii) : bool :=
  (((9 <=? code c) && (code c <=? 13)) || (code c =? 32) || (code c =? 160))%N.

Definition digitValue (c : ascii) : Z := Z.of_N (code c) - 48.

End Chars.
Export Chars.

Module Str.

(** String.prototype.trimStart *)
Fixpoint trimStart (s : string) : string :=
  match s with
  | String c t => if isSpace c then trimStart t else s
  | EmptyString => EmptyString
  end.

(** String.prototype.trimEnd *)
Fixpoint trimEnd (s : string) : string :=
  match s with
  | String c t =>
      match trimEnd t with
      | EmptyString => if isSpace c then EmptyString else String c EmptyString
      | t' => String c t'
      end
  | EmptyString => EmptyString
  end.

(** String.prototype.trim *)
Definition trim (s : string) : string := trimEnd (trimStart s).

(** The longest prefix of digits, and what follows it: the greedy \d* *)
Fixpoint spanDigits (s : string) : string * string :=
  match s with
  | String c t =>
      if isDigit c then let '(ds, r) := spanDigits t in (String c ds, r)
      else (EmptyString, s)
  | EmptyString => (EmptyString, EmptyString)
  end.

(** Array.prototype.join *)
Fixpoint join (sep : string) (l : list string) : string :=
  match l with
  | [] => EmptyString
  | [x] => x
  | x :: r => x +:+ sep +:+ join sep r
  end.

(** [split sep s] is s.split(sep) for a one-character separator; [cur] is
    the piece being read, reversed. *)
Fixpoint splitAux (sep : ascii) (s : string) (cur : string) : list string :=
  match s with
  | EmptyString => [String.rev cur]
  | String c t =>
      if Ascii.eqb c sep then String.rev cur :: splitAux sep t EmptyString
      else splitAux sep t (String c cur)
  end.

Definition split (sep : ascii) (s : string) : list string := splitAux sep s EmptyString.

(** String.prototype.includes *)
Fixpoint includes (s sub : string) : bool :=
  String.prefix sub s ||
  match s with
  | String _ t => includes t sub
  | EmptyString => false
  end.

End Str.

Module Num.

(** The decimal digits of an integer, with a leading minus sign when
    negative. *)
Definition decimalString (n : Z) : string := NilZero.string_of_int (Z.to_int n).

(** A run of digits without its trailing zeros. *)
Fixpoint stripZeros (s : string) : string :=
  match s with
  | String c t =>
      match stripZeros t with
      | EmptyString => if Ascii.eqb c "0" then EmptyString else String c EmptyString
      | t' => String c t'
      end
  | EmptyString => EmptyString
  end.

(** The digits after the first one, behind a decimal point when there are
    any. *)
Definition fraction (m : string) : string :=
  match m with
  | EmptyString => EmptyString
  | _ => String "." m
  end.

(** Exponent notation of the positive integer whose decimal digits are
    [digits]: the first significant digit, the other significant digits behind
    a point, then e+ and the exponent, one less than the number of digits. *)
Definition exponentString (digits : string) : string :=
  match stripZeros digits with
  | String d m =>
      String d (fraction m) +:+ "e+" +:+
      decimalString (Z.of_nat (String.length digits - 1))
  | EmptyString => digits
  end.

(** From this magnitude on (more than 21 digits) Number::toString uses the
    exponent notation. *)
Definition exponentLimit : Z := 10 ^ 21.

(** Number::toString of an integer: its decimal digits below [exponentLimit],
    exponent notation from there on; a leading minus sign when negative. *)
Definition numberToString (n : Z) : string :=
  if Z.abs n <? exponentLimit then decimalString n
  else if n <? 0 then String "-" (exponentString (decimalString (- n)))
  else exponentString (decimalString n).

(** Number.MAX_SAFE_INTEGER and Number.isSafeInteger, on integers. *)
Definition maxSafeInteger : Z := 2 ^ 53 - 1.

Definition isSafeInteger (n : Z) : Prop := Z.abs n <= maxSafeInteger.

(** The value of a run of decimal digits, most significant first. *)
Fixpoint digitsValue (s : string) (acc : Z) : Z :=
  match s with
  | String c t => digitsValue t (10 * acc + digitValue c)
  | EmptyString => acc
  end.

(** parseInt(s) without radix: leading white space is skipped, then an optional
    sign, then the longest run of decimal digits; [None] is NaN (no digit).
    The hexadecimal prefix 0x is not modelled: the scanner never passes a
    string with a letter in it. *)
Definition parseInt (s : string) : option Z :=
  let s0 := Str.trimStart s in
  let '(neg, s1) :=
    match s0 with
    | String c t =>
        if Ascii.eqb c "-" then (true, t)
        else if Ascii.eqb c "+" then (false, t)
        else (false, s0)
    | EmptyString => (false, s0)
    end in
  match Str.spanDigits s1 with
  | (EmptyString, _) => None
  | (ds, _) => Some (if neg then - digitsValue ds 0 else digitsValue ds 0)
  end.

(** [x || 0] for a number x: NaN and 0 (also -0) give 0. *)
Definition orZero (x : option Z) : Z := default 0 x.

End Num.
Export Num.

(** ** Domain model: class AtomicFormula *)

Record AtomicFormula := mkFormula {
  carbon : Z;
  hydrogen : Z;
  nitrogen : Z;
  oxygen : Z;
  sulfur : Z;
  phosphorus : Z;
  chlorine : Z
}.

Definition zeroFormula : AtomicFormula := mkFormula 0 0 0 0 0 0 0.

(** A formula whose seven counts are safe integers. *)
Definition safeFormula (f : AtomicFormula) : Prop :=
  isSafeInteger (carbon f) /\ isSafeInteger (hydrogen f) /\ isSafeInteger (nitrogen f) /\
  isSafeInteger (oxygen f) /\ isSafeInteger (sulfur f) /\ isSafeInteger (phosphorus f) /\
  isSafeInteger (chlorine f).

Definition add (this other : AtomicFormula) : AtomicFormula :=
  mkFormula (carbon this + carbon other) (hydrogen this + hydrogen other)
            (nitrogen this + nitrogen other) (oxygen this + oxygen other)
            (sulfur this + sulfur other) (phosphorus this + phosphorus other)
            (chlorine this + chlorine other).

Definition toFormulaString (this : AtomicFormula) : string :=
  "C" +:+ numberToString (carbon this) +:+
  "H" +:+ numberToString (hydrogen this) +:+
  "Cl" +:+ numberToString (chlorine this) +:+
  "N" +:+ numberToString (nitrogen this) +:+
  "O" +:+ numberToString (oxygen this) +:+
  "P" +:+ numberToString (phosphorus this) +:+
  "S" +:+ numberToString (sulfur this).

(** One successful [pattern.exec]: the two capture groups and the rest of the
    input after the match (the text from the new lastIndex on). *)
Record RegexMatch := mkMatch {
  group1 : string;
  group2 : string;
  afterMatch : string
}.

(** [a-z]? at the head of [t]: the letter taken, if any, and the rest. *)
Definition optLower (t : string) : string * string :=
  match t with
  | String d t' => if isLower d then (String d EmptyString, t') else (EmptyString, t)
  | EmptyString => (EmptyString, t)
  end.

(** -? at the head of [t]: the sign taken, if any, and the rest. *)
Definition optMinus (t : string) : string * string :=
  match t with
  | String d t' => if Ascii.eqb d "-" then (String d EmptyString, t') else (EmptyString, t)
  | EmptyString => (EmptyString, t)
  end.

(** The global pattern of parseFormulaString, whose group 1 is [A-Z][a-z]? and
    whose group 2 is -?\d* , applied to the text from lastIndex on.  The first
    upper-case letter starts the match; every later part of the pattern is
    optional and greedy, so no backtracking happens.  [None] is null. *)
Fixpoint patternExec (s : string) : option RegexMatch :=
  match s with
  | EmptyString => None
  | String c t =>
      if isUpper c then
        let '(lo, t1) := optLower t in
        let '(sg, t2) := optMinus t1 in
        let '(ds, t3) := Str.spanDigits t2 in
        Some (mkMatch (String c lo) (sg +:+ ds) t3)
      else patternExec t
  end.

(** The while loop of parseFormulaString.  Each iteration consumes at least
    one character, so [fuel] above the length of the text is never used up;
    [None] is returned only when it is. *)
Fixpoint execLoop (fuel : nat) (s : string) (atoms : gmap string Z) : option (gmap string Z) :=
  match fuel with
  | O => None
  | S fuel' =>
      match patternExec s with
      | None => Some atoms
      | Some m => execLoop fuel' (afterMatch m) (<[group1 m := orZero (parseInt (group2 m))]> atoms)
      end
  end.

(** [atoms[k] || 0] *)
Definition atomCount (atoms : gmap string Z) (k : string) : Z := orZero (atoms !! k).

Definition formulaOfAtoms (atoms : gmap string Z) : AtomicFormula :=
  mkFormula (atomCount atoms "C") (atomCount atoms "H") (atomCount atoms "N")
            (atomCount atoms "O") (atomCount atoms "S") (atomCount atoms "P")
            (atomCount atoms "Cl").

Definition scanAtoms (formula : string) : option (gmap string Z) :=
  execLoop (S (String.length formula)) formula ∅.

(** parseFormulaString.  The [None] branch is dead: see [scanAtoms_total]. *)
Definition parseFormulaString (formula : string) : AtomicFormula :=
  match scanAtoms formula with
  | Some atoms => formulaOfAtoms atoms
  | None => zeroFormula
  end.

(** ** Notions used to state facts about the parser *)

(** The text after a numeral must not extend its digits. *)
Definition noDigitHead (rest : string) : Prop :=
  match rest with
  | String c _ => isDigit c = false
  | EmptyString => True
  end.

Fixpoint allDigits (s : string) : bool :=
  match s with
  | String c t => isDigit c && allDigits t
  | EmptyString => true
  end.

(** A run of [r] zeros. *)
Fixpoint zeros (r : nat) : string :=
  match r with
  | O => EmptyString
  | S r' => String "0" (zeros r')
  end.

(** A numeral: an optional minus sign and at least one digit. *)
Definition isNumeral (s : string) : Prop :=
  exists sg c ds, s = sg +:+ String c ds /\ (sg = EmptyString \/ sg = "-") /\
                  isDigit c = true /\ allDigits ds = true.

(** The accumulator of the Standard Library's decimal reader, seen from the
    running value of [digitsValue]. *)
Definition uintAcc (acc : N) (u : Decimal.uint) : N :=
  match acc with
  | N0 => Pos.of_uint u
  | Npos p => Npos (Pos.of_uint_acc u p)
  end.

(** The loop from text [s] on, with the fuel of [scanAtoms]. *)
Definition scanFrom (s : string) (atoms : gmap string Z) : option (gmap string Z) :=
  execLoop (S (String.length s)) s atoms.

Fixpoint hasUpper (s : string) : bool :=
  match s with
  | String c t => isUpper c || hasUpper t
  | EmptyString => false
  end.

(** What group 1 of the pattern can hold: an upper-case letter, then at most
    one lower-case letter. *)
Definition isSymbol (sym : string) : Prop :=
  exists u, isUpper u = true /\
    (sym = String u EmptyString \/
     exists l, isLower l = true /\ sym = String u (String l EmptyString)).

(** The element symbols that the constructor call of parseFormulaString reads. *)
Definition trackedSymbols : list string := ["C"; "H"; "N"; "O"; "S"; "P"; "Cl"].

(** The count that a formula holds for a tracked symbol. *)
Definition countOf (f : AtomicFormula) (sym : string) : Z :=
  if String.eqb sym "C" then carbon f
  else if String.eqb sym "H" then hydrogen f
  else if String.eqb sym "N" then nitrogen f
  else if String.eqb sym "O" then oxygen f
  else if String.eqb sym "S" then sulfur f
  else if String.eqb sym "P" then phosphorus f
  else if String.eqb sym "Cl" then chlorine f
  else 0.

(** ** Application state *)

(** A formula entry of the catalog: [{id, originalFormula}]. *)
Record Entry := mkEntry {
  id : string;
  originalFormula : AtomicFormula
}.

(** A correction: [{formula}]. *)
Record Correction := mkCorrection {
  formula : AtomicFormula
}.

(** A result record: [{originalEntry, matchedEntry, appliedCorrection}]. *)
Record Match := mkResult {
  originalEntry : Entry;
  matchedEntry : Entry;
  appliedCorrection : AtomicFormula
}.

(** The useState cells of MolecularMatcher that the handlers below write. *)
Record State := mkState {
  formulas : list Entry;
  corrections : list Correction;
  results : list Match;
  error : option string;
  isLoading : bool;
  isProcessing : bool;
  processProgress : nat * nat   (* current, total *)
}.

Definition initialState : State := mkState [] [] [] None false false (O, O).

Definition setFormulas (v : list Entry) (st : State) : State :=
  mkState v (corrections st) (results st) (error st) (isLoading st) (isProcessing st) (processProgress st).
Definition setCorrections (v : list Correction) (st : State) : State :=
  mkState (formulas st) v (results st) (error st) (isLoading st) (isProcessing st) (processProgress st).
Definition setResults (v : list Match) (st : State) : State :=
  mkState (formulas st) (corrections st) v (error st) (isLoading st) (isProcessing st) (processProgress st).
Definition setError (v : option string) (st : State) : State :=
  mkState (formulas st) (corrections st) (results st) v (isLoading st) (isProcessing st) (processProgress st).
Definition setIsLoading (v : bool) (st : State) : State :=
  mkState (formulas st) (corrections st) (results st) (error st) v (isProcessing st) (processProgress st).
Definition setIsProcessing (v : bool) (st : State) : State :=
  mkState (formulas st) (corrections st) (results st) (error st) (isLoading st) v (processProgress st).
Definition setProcessProgress (v : nat * nat) (st : State) : State :=
  mkState (formulas st) (corrections st) (results st) (error st) (isLoading st) (isProcessing st) v.

(** ** Loaders *)

Record Validation := mkValidation {
  isValid : bool;
  message : option string
}.

Definition requiredColumns : list string := ["ID"; "formulas"].

Definition missingColumns (headers : list string) : list string :=
  List.filter (fun col => negb (existsb (fun header => String.eqb (Str.trim header) col) headers))
              requiredColumns.

Definition validateCSVStructure (headers : list string) : Validation :=
  let missing := missingColumns headers in
  if (0 <? length missing)%nat then
    mkValidation false (Some ("Missing required column(s): " +:+ Str.join ", " missing))
  else mkValidation true None.

(** What Papa.parse hands to its callbacks: [complete] receives the header
    names (results.meta.fields) and the rows (results.data), each row an object
    keyed by the header names as they stand in the file; [error] receives a
    message. *)
Inductive PapaOutcome :=
  | PapaComplete (fields : list string) (data : list (gmap string string))
  | PapaError (msg : string).

(** A string used as a condition: undefined and the empty string are falsy. *)
Definition truthy (v : option string) : bool :=
  match v with
  | Some (String _ _) => true
  | _ => false
  end.

Definition rowToEntry (row : gmap string string) : Entry :=
  mkEntry (default EmptyString (row !! "ID"))
          (parseFormulaString (default EmptyString (Str.trim <$> row !! "formulas"))).

(** handleFormulaFile; [file] is [None] when no file was chosen.  Nothing in
    the try block can throw on a row that passed the filter, so the catch
    branch has no counterpart here. *)
Definition handleFormulaFile (file : option PapaOutcome) (st : State) : State :=
  let st := setIsLoading true (setError None st) in
  match file with
  | None => st
  | Some (PapaComplete fields data) =>
      let validationResult := validateCSVStructure fields in
      if negb (isValid validationResult) then
        setIsLoading false (setFormulas [] (setError (message validationResult) st))
      else
        let parsedFormulas :=
          map rowToEntry
              (List.filter (fun row => truthy (row !! "ID") && truthy (row !! "formulas")) data) in
        if (length parsedFormulas =? 0)%nat then
          setIsLoading false (setError (Some "No valid formulas found in the CSV file") st)
        else setIsLoading false (setFormulas parsedFormulas st)
  | Some (PapaError msg) =>
      setIsLoading false (setFormulas [] (setError (Some ("Error parsing CSV file: " +:+ msg)) st))
  end.

(** The outcome of [await file.text()]. *)
Inductive FileText :=
  | TextRead (text : string)
  | TextFailed (msg : string).

Definition parseCorrections (text : string) : list Correction :=
  map (fun line => mkCorrection (parseFormulaString line))
      (List.filter (fun line => (0 <? String.length line)%nat)
                   (map Str.trim (Str.split "010" text))).

(** handleCorrectionFile *)
Definition handleCorrectionFile (file : option FileText) (st : State) : State :=
  let st := setIsLoading true (setError None st) in
  match file with
  | None => st
  | Some (TextRead text) => setIsLoading false (setCorrections (parseCorrections text) st)
  | Some (TextFailed msg) =>
      setIsLoading false
        (setCorrections [] (setError (Some ("Error parsing corrections file: " +:+ msg)) st))
  end.

(** ** Matching engine: applyCorrections *)

(** The lookup map: formulas.forEach(c => formulasByFormula.set(key(c), c)). *)
Definition buildIndex (formulas : list Entry) : gmap string Entry :=
  fold_left (fun m c => <[toFormulaString (originalFormula c) := c]> m) formulas ∅.

(** The body of corrections.forEach, for the entry [entry]; [newResults.push]
    appends at the end. *)
Definition correctionStep (formulasByFormula : gmap string Entry) (entry : Entry)
    (newResults : list Match) (correction : Correction) : list Match :=
  let correctedFormula := add (originalFormula entry) (formula correction) in
  let correctedFormulaString := toFormulaString correctedFormula in
  match formulasByFormula !! correctedFormulaString with
  | Some matchedFormula =>
      if negb (String.eqb (id matchedFormula) (id entry)) then
        newResults ++ [mkResult entry matchedFormula (formula correction)]
      else newResults
  | None => newResults
  end.

(** The body of batchFormulas.forEach. *)
Definition entryStep (formulasByFormula : gmap string Entry) (corrections : list Correction)
    (newResults : list Match) (entry : Entry) : list Match :=
  fold_left (correctionStep formulasByFormula entry) corrections newResults.

(** Array.prototype.slice(from, to) for indices within range or beyond. *)
Definition slice {A} (l : list A) (from to : nat) : list A := take (to - from) (drop from l).

(** The for loop over the batches, from index [i] on.  [None] only when the
    fuel is used up before the loop ends. *)
Fixpoint batchLoop (fuel : nat) (batchSize : nat) (formulasByFormula : gmap string Entry)
    (formulas : list Entry) (corrections : list Correction)
    (i : nat) (newResults : list Match) : option (list Match) :=
  if (i <? length formulas)%nat then
    match fuel with
    | O => None
    | S fuel' =>
        let batchFormulas := slice formulas i (Nat.min (i + batchSize) (length formulas)) in
        batchLoop fuel' batchSize formulasByFormula formulas corrections (i + batchSize)
                  (fold_left (entryStep formulasByFormula corrections) batchFormulas newResults)
    end
  else Some newResults.

(** The computation inside the try block, with the batch size as a
    parameter; a batch size of at least 1 needs at most one iteration per
    entry. *)
Definition matchBatched (batchSize : nat) (formulas : list Entry) (corrections : list Correction)
    : option (list Match) :=
  batchLoop (length formulas) batchSize (buildIndex formulas) formulas corrections O [].

Definition batchSize : nat := 100.

(** applyCorrections, followed by the callback it schedules with setTimeout;
    the callback reads the [formulas] and [corrections] of the call.  The
    operations of the try block cannot throw, so the catch branch has no
    counterpart; the [None] branch is dead, since with batch size 100 the
    fuel is enough (see [matchBatched_flat]). *)
Definition applyCorrections (st : State) : State :=
  if (length (formulas st) =? 0)%nat || (length (corrections st) =? 0)%nat then
    setError (Some "No formulas or corrections loaded") st
  else
    let st := setIsProcessing true
                (setProcessProgress (O, length (formulas st)) (setIsLoading true st)) in
    match matchBatched batchSize (formulas st) (corrections st) with
    | Some newResults =>
        setIsProcessing false (setIsLoading false
          (setProcessProgress (length (formulas st), snd (processProgress st))
             (setResults newResults st)))
    | None => st
    end.

(** ** Export rows: exportToCSV *)

Record ExportRow := mkExportRow {
  row_ID : string;
  row_OriginalFormula : string;
  row_NumberOfMatches : nat;
  row_Matches : string
}.

Definition describeMatch (m : Match) : string :=
  "correction = " +:+ toFormulaString (appliedCorrection m) +:+
  " result = (ID " +:+ id (matchedEntry m) +:+ ") " +:+
  toFormulaString (originalFormula (matchedEntry m)).

Definition matchesFor (results : list Match) (entry : Entry) : list Match :=
  List.filter (fun r => String.eqb (id (originalEntry r)) (id entry)) results.

(** The callback of sortedFormulas.map. *)
Definition exportRow (results : list Match) (entry : Entry) : ExportRow :=
  let matchesForFormula := matchesFor results entry in
  mkExportRow (id entry) (toFormulaString (originalFormula entry))
    (length matchesForFormula)
    (if (0 <? length matchesForFormula)%nat
     then "[" +:+ Str.join ", " (map describeMatch matchesForFormula) +:+ "]"
     else EmptyString).

(** exportData; [sortedFormulas] is the memoised list of the displayed
    entries, in display order. *)
Definition exportData (sortedFormulas : list Entry) (results : list Match) : list ExportRow :=
  map (exportRow results) sortedFormulas.

(** ** The matching algorithm as a flat double loop *)

(** The key of an entry in the lookup map. *)
Definition entryKey (e : Entry) : string := toFormulaString (originalFormula e).

(** Steps 2a to 2c of the matching algorithm for one entry and one
    correction: the match that is emitted, if any. *)
Definition emitMatch (index : gmap string Entry) (e : Entry) (c : Correction) : option Match :=
  match index !! toFormulaString (add (originalFormula e) (formula c)) with
  | Some m => if bool_decide (id m ≠ id e) then Some (mkResult e m (formula c)) else None
  | None => None
  end.

(** The flat double loop, in the words of the specification: build the index,
    then for every entry in input order (outer) and every correction in input
    order (inner), emit the match if there is one. *)
Definition matchFlat (entries : list Entry) (corrections : list Correction) : list Match :=
  flat_map (fun e => omap (emitMatch (buildIndex entries) e) corrections) entries.

(** The description of a match in the words of the specification, with no
    space around the equal signs. *)
Definition describeMatchSpec (m : Match) : string :=
  "correction=" +:+ toFormulaString (appliedCorrection m) +:+
  " result=(ID " +:+ id (matchedEntry m) +:+ ") " +:+
  toFormulaString (originalFormula (matchedEntry m)).

(** ** A small session, used to run the model *)

Module Demo.

Definition rows : list (gmap string string) :=
  [ {[ "ID" := "1"; "formulas" := "C1H1" ]}; {[ "ID" := "2"; "formulas" := "C1H1" ]} ].

Definition entry1 : Entry := mkEntry "1" (mkFormula 1 1 0 0 0 0 0).
Definition entry2 : Entry := mkEntry "2" (mkFormula 1 1 0 0 0 0 0).

(** The catalog file is loaded. *)
Definition catalogLoaded : State :=
  handleFormulaFile (Some (PapaComplete ["ID"; "formulas"] rows)) initialState.

(** Then a corrections file with the single line C0H0. *)
Definition bothLoaded : State :=
  handleCorrectionFile (Some (TextRead "C0H0")) catalogLoaded.

(** Or a corrections file with nothing in it. *)
Definition noCorrections : State :=
  handleCorrectionFile (Some (TextRead EmptyString)) catalogLoaded.

Definition theMatch : Match := mkResult entry1 entry2 zeroFormula.

End Demo.

(** ** The rest of the component: search, sort order and the buttons *)

(** String.prototype.toLowerCase on one code unit below 256: the letters A to Z
    and the upper-case letters of Latin-1 (192 to 222 but for 215) move up by
    32. *)
Definition lowerChar (c : ascii) : ascii :=
  let n := code c in
  if (((65 <=? n) && (n <=? 90)) || ((192 <=? n) && (n <=? 214)) ||
      ((216 <=? n) && (n <=? 222)))%N
  then ascii_of_N (n + 32) else c.

Fixpoint toLowerCase (s : string) : string :=
  match s with
  | String c t => String (lowerChar c) (toLowerCase t)
  | EmptyString => EmptyString
  end.

(** The callback of formulas.filter in sortedFormulas, for the search text
    [searchQuery]: an entry without an id is dropped, the others are kept when
    their id or their canonical formula contains the text, case apart. *)
Definition searchKeeps (searchQuery : string) (entry : Entry) : bool :=
  match id entry with
  | EmptyString => false
  | _ =>
      let searchLower := toLowerCase searchQuery in
      Str.includes (toLowerCase (id entry)) searchLower ||
      Str.includes (toLowerCase (toFormulaString (originalFormula entry))) searchLower
  end.

Definition searchFilter (searchQuery : string) (formulas : list Entry) : list Entry :=
  List.filter (searchKeeps searchQuery) formulas.

(** The sortConfig cell: [{key, direction}]. *)
Inductive Direction := asc | desc.

Record SortConfig := mkSortConfig {
  key : string;
  direction : Direction
}.

Definition initialSortConfig : SortConfig := mkSortConfig "id" asc.

(** handleSort *)
Definition handleSort (k : string) (sortConfig : SortConfig) : SortConfig :=
  mkSortConfig k
    (if String.eqb (key sortConfig) k &&
        match direction sortConfig with asc => true | desc => false end
     then desc else asc).

(** The [disabled] attribute of the Apply Corrections button. *)
Definition applyDisabled (st : State) : bool :=
  (length (formulas st) =? 0)%nat || (length (corrections st) =? 0)%nat || isLoading st.

(** resetAll, on the cells of [State]. *)
Definition resetAll (st : State) : State :=
  setIsProcessing false (setProcessProgress (O, O) (setIsLoading false (setError None
    (setResults [] (setCorrections [] (setFormulas [] st)))))).

(** What the user can do: choose a catalog file, choose a corrections file,
    press Apply Corrections, press Reset. *)
Inductive Action :=
  | LoadFormulas (file : option PapaOutcome)
  | LoadCorrections (file : option FileText)
  | Apply
  | Reset.

Definition act (a : Action) (st : State) : State :=
  match a with
  | LoadFormulas file => handleFormulaFile file st
  | LoadCorrections file => handleCorrectionFile file st
  | Apply => applyCorrections st
  | Reset => resetAll st
  end.

(** The state after a sequence of actions on the freshly mounted component. *)
Definition run (actions : list Action) : State :=
  fold_left (fun st a => act a st) actions initialState.

(** ** Notions used to state further facts *)

(** The text after a token: nothing, or the upper-case letter of the next
    token. *)
Definition tokenBoundary (rest : string) : Prop :=
  match rest with
  | String c _ => isUpper c = true
  | EmptyString => True
  end.

Fixpoint containsChar (c : ascii) (s : string) : bool :=
  match s with
  | String d t => Ascii.eqb d c || containsChar c t
  | EmptyString => false
  end.

(** A row that can give an entry: both fields are there and not empty. *)
Definition usableRow (row : gmap string string) : bool :=
  truthy (row !! "ID") && truthy (row !! "formulas").

(** The row of a catalog file that holds an entry in canonical form. *)
Definition entryRow (e : Entry) : gmap string string :=
  {[ "ID" := id e; "formulas" := toFormulaString (originalFormula e) ]}.

Fixpoint noSpace (s : string) : bool :=
  match s with
  | String c t => negb (isSpace c) && noSpace t
  | EmptyString => true
  end.

#[global] Instance AtomicFormula_eq_dec : EqDecision AtomicFormula.
Proof. solve_decision. Defined.

(** ** Facts about characters and numerals *)

Section CharFacts.

Lemma isDigit_not_lower c : isDigit c = true -> isLower c = false.
Proof.
  unfold isDigit, isLower. intros H.
  apply andb_true_iff in H as [_ H]. apply N.leb_le in H.
  apply andb_false_iff. left. apply N.leb_gt. lia.
Qed.

Lemma isDigit_not_upper c : isDigit c = true -> isUpper c = false.
Proof.
  unfold isDigit, isUpper. intros H.
  apply andb_true_iff in H as [_ H]. apply N.leb_le in H.
  apply andb_false_iff. left. apply N.leb_gt. lia.
Qed.

Lemma isDigit_not_space c : isDigit c = true -> isSpace c = false.
Proof.
  unfold isDigit, isSpace. intros H.
  apply andb_true_iff in H as [H1 H2]. apply N.leb_le in H1, H2.
  repeat (apply orb_false_iff; split).
  - apply andb_false_iff. right. apply N.leb_gt. lia.
  - apply N.eqb_neq. lia.
  - apply N.eqb_neq. lia.
Qed.

Lemma isDigit_not_sign c : isDigit c = true -> Ascii.eqb c "-" = false /\ Ascii.eqb c "+" = false.
Proof.
  intros H. split; apply Ascii.eqb_neq; intros ->; discriminate H.
Qed.

Lemma isUpper_not_digit c : isUpper c = true -> isDigit c = false.
Proof.
  intros H. destruct (isDigit c) eqn:E; [|done].
  apply isDigit_not_upper in E. congruence.
Qed.

End CharFacts.

Section NumeralFacts.

Lemma spanDigits_stop rest : noDigitHead rest -> Str.spanDigits rest = (EmptyString, rest).
Proof. destruct rest as [|c t]; simpl; [done|]. by intros ->. Qed.

Lemma spanDigits_allDigits ds rest :
  allDigits ds = true -> noDigitHead rest -> Str.spanDigits (ds +:+ rest) = (ds, rest).
Proof.
  induction ds as [|c t IH]; simpl; intros Hd Hr.
  - by apply spanDigits_stop.
  - apply andb_true_iff in Hd as [Hc Ht]. rewrite Hc, IH; done.
Qed.

Lemma allDigits_uint u : allDigits (NilEmpty.string_of_uint u) = true.
Proof. induction u; simpl; auto. Qed.

Lemma digitsValue_uint u :
  forall acc : N, digitsValue (NilEmpty.string_of_uint u) (Z.of_N acc) = Z.of_N (uintAcc acc u).
Proof.
  induction u as [|u IH|u IH|u IH|u IH|u IH|u IH|u IH|u IH|u IH|u IH]; intros acc;
    [ by destruct acc | .. ];
    cbn [NilEmpty.string_of_uint digitsValue];
    match goal with
    | |- digitsValue _ ?v = Z.of_N (uintAcc _ (?D u)) =>
        let k := eval vm_compute in (Pos.of_uint (D Decimal.Nil)) in
        replace v with (Z.of_N (10 * acc + k)%N)
          by (unfold digitValue, code; cbn; lia);
        rewrite IH; f_equal; destruct acc as [|p]; [reflexivity|];
        cbn [uintAcc Pos.of_uint_acc];
        match goal with
        | |- uintAcc ?a u = N.pos (Pos.of_uint_acc u ?q) =>
            replace a with (N.pos q) by lia; reflexivity
        end
    end.
Qed.

Lemma digitsValue_pos p : digitsValue (NilEmpty.string_of_uint (Pos.to_uint p)) 0 = Z.pos p.
Proof.
  change 0 with (Z.of_N 0). rewrite digitsValue_uint. cbn [uintAcc].
  by rewrite DecimalPos.Unsigned.of_to.
Qed.

Lemma spanDigits_all ds : allDigits ds = true -> Str.spanDigits ds = (ds, EmptyString).
Proof.
  induction ds as [|c t IH]; simpl; [done|]. intros Hd.
  apply andb_true_iff in Hd as [Hc Ht]. by rewrite Hc, IH.
Qed.

Lemma uint_string_head u :
  u <> Decimal.Nil ->
  exists c ds, NilEmpty.string_of_uint u = String c ds /\ isDigit c = true /\ allDigits ds = true.
Proof.
  destruct u; intros Hnil; [done | ..]; cbn [NilEmpty.string_of_uint];
    eexists _, _; (split; [reflexivity|]); (split; [reflexivity|]); apply allDigits_uint.
Qed.

Lemma string_of_uint_pos p :
  NilZero.string_of_uint (Pos.to_uint p) = NilEmpty.string_of_uint (Pos.to_uint p).
Proof.
  pose proof (DecimalPos.Unsigned.to_uint_nonnil p) as Hnil.
  by destruct (Pos.to_uint p).
Qed.

Lemma decimalString_pos p :
  decimalString (Z.pos p) = NilEmpty.string_of_uint (Pos.to_uint p).
Proof. unfold decimalString. cbn [Z.to_int NilZero.string_of_int]. apply string_of_uint_pos. Qed.

Lemma decimalString_neg p :
  decimalString (Z.neg p) = String "-" (NilEmpty.string_of_uint (Pos.to_uint p)).
Proof.
  unfold decimalString. cbn [Z.to_int NilZero.string_of_int]. by rewrite string_of_uint_pos.
Qed.

Lemma decimalString_numeral z : isNumeral (decimalString z).
Proof.
  destruct z as [|p|p].
  - exists EmptyString, "0"%char, EmptyString. repeat split; auto.
  - rewrite decimalString_pos.
    destruct (uint_string_head (Pos.to_uint p)) as (c & ds & -> & Hc & Hds);
      [apply DecimalPos.Unsigned.to_uint_nonnil|].
    exists EmptyString, c, ds. repeat split; auto.
  - rewrite decimalString_neg.
    destruct (uint_string_head (Pos.to_uint p)) as (c & ds & -> & Hc & Hds);
      [apply DecimalPos.Unsigned.to_uint_nonnil|].
    exists "-", c, ds. repeat split; auto.
Qed.

(** parseInt reads back the decimal digits of an integer. *)
Lemma parseInt_decimalString z : parseInt (decimalString z) = Some z.
Proof.
  destruct z as [|p|p].
  - reflexivity.
  - rewrite decimalString_pos.
    destruct (uint_string_head (Pos.to_uint p)) as (c & ds & E & Hc & Hds);
      [apply DecimalPos.Unsigned.to_uint_nonnil|].
    pose proof (digitsValue_pos p) as Hv. rewrite E in *.
    destruct (isDigit_not_sign c Hc) as [Hm Hp].
    unfold parseInt. cbn [Str.trimStart]. rewrite (isDigit_not_space c Hc), Hm, Hp.
    rewrite spanDigits_all by (simpl; by rewrite Hc, Hds).
    by rewrite Hv.
  - rewrite decimalString_neg.
    destruct (uint_string_head (Pos.to_uint p)) as (c & ds & E & Hc & Hds);
      [apply DecimalPos.Unsigned.to_uint_nonnil|].
    pose proof (digitsValue_pos p) as Hv. rewrite E in *.
    unfold parseInt. cbn [Str.trimStart].
    change (isSpace "-") with false. cbn match. change (Ascii.eqb "-" "-") with true. cbn match.
    rewrite spanDigits_all by (simpl; by rewrite Hc, Hds).
    by rewrite Hv.
Qed.

End NumeralFacts.

(** ** Facts about the scanner *)

Section ScannerFacts.

Lemma str_app_cons c (s t : string) : String c s +:+ t = String c (s +:+ t).
Proof. reflexivity. Qed.

Lemma str_app_nil (t : string) : EmptyString +:+ t = t.
Proof. reflexivity. Qed.

Lemma spanDigits_length s :
  (String.length (snd (Str.spanDigits s)) <= String.length s)%nat.
Proof.
  induction s as [|c t IH]; simpl; [lia|].
  destruct (isDigit c); [|simpl; lia].
  destruct (Str.spanDigits t) as [ds r]. simpl in *. lia.
Qed.

Lemma optLower_length t : (String.length (snd (optLower t)) <= String.length t)%nat.
Proof. destruct t as [|d t']; simpl; [lia|]. destruct (isLower d); simpl; lia. Qed.

Lemma optMinus_length t : (String.length (snd (optMinus t)) <= String.length t)%nat.
Proof. destruct t as [|d t']; simpl; [lia|]. destruct (Ascii.eqb d "-"); simpl; lia. Qed.

(** Every match consumes at least one character. *)
Lemma patternExec_shorter s m :
  patternExec s = Some m -> (String.length (afterMatch m) < String.length s)%nat.
Proof.
  induction s as [|c t IH]; simpl; [done|].
  destruct (isUpper c).
  - pose proof (optLower_length t) as H1. destruct (optLower t) as [lo t1].
    pose proof (optMinus_length t1) as H2. destruct (optMinus t1) as [sg t2].
    pose proof (spanDigits_length t2) as H3. destruct (Str.spanDigits t2) as [ds t3].
    simpl in *. intros [= <-]. simpl. lia.
  - intros H. apply IH in H. lia.
Qed.

(** Fuel above the length of the text is never used up, and the result does
    not depend on how much more there is. *)
Lemma execLoop_fuel fuel :
  forall n s atoms,
    (String.length s < fuel)%nat -> (String.length s < n)%nat ->
    execLoop fuel s atoms = execLoop n s atoms.
Proof.
  induction fuel as [|fuel IH]; intros n s atoms Hf Hn; [lia|].
  destruct n as [|n]; [lia|]. simpl.
  destruct (patternExec s) as [m|] eqn:E; [|done].
  apply patternExec_shorter in E. apply IH; lia.
Qed.

Lemma execLoop_total fuel :
  forall s atoms, (String.length s < fuel)%nat -> is_Some (execLoop fuel s atoms).
Proof.
  induction fuel as [|fuel IH]; intros s atoms Hf; [lia|]. simpl.
  destruct (patternExec s) as [m|] eqn:E; [|by eexists].
  apply patternExec_shorter in E. apply IH; lia.
Qed.

Lemma scanFrom_step s m atoms :
  patternExec s = Some m ->
  scanFrom s atoms =
  scanFrom (afterMatch m) (<[group1 m := orZero (parseInt (group2 m))]> atoms).
Proof.
  intros E. unfold scanFrom at 1. cbn [execLoop]. rewrite E.
  apply patternExec_shorter in E. apply execLoop_fuel; lia.
Qed.

Lemma scanFrom_done s atoms : patternExec s = None -> scanFrom s atoms = Some atoms.
Proof. intros E. unfold scanFrom. cbn [execLoop]. by rewrite E. Qed.

Lemma scanAtoms_total formula : is_Some (scanAtoms formula).
Proof. apply execLoop_total. lia. Qed.

Lemma parseFormulaString_scanFrom formula atoms :
  scanFrom formula ∅ = Some atoms -> parseFormulaString formula = formulaOfAtoms atoms.
Proof. unfold parseFormulaString, scanAtoms, scanFrom. by intros ->. Qed.

(** A one-letter symbol followed by a numeral. *)
Lemma patternExec_token1 u num rest :
  isUpper u = true -> isNumeral num -> noDigitHead rest ->
  patternExec (String u (num +:+ rest)) = Some (mkMatch (String u EmptyString) num rest).
Proof.
  intros Hu (sg & c & ds & -> & Hsg & Hc & Hds) Hrest.
  destruct (isDigit_not_sign c Hc) as [Hm _].
  destruct Hsg as [-> | ->]; rewrite ?str_app_nil, ?str_app_cons;
    cbn [patternExec optLower optMinus]; rewrite Hu.
  - rewrite (isDigit_not_lower c Hc). cbn [optMinus]. rewrite Hm.
    cbn [Str.spanDigits]. rewrite Hc. by rewrite spanDigits_allDigits.
  - rewrite str_app_nil, str_app_cons. change (isLower "-") with false. cbn [optMinus].
    change (Ascii.eqb "-" "-") with true. cbn match.
    cbn [Str.spanDigits]. rewrite Hc. by rewrite spanDigits_allDigits.
Qed.

(** A two-letter symbol followed by a numeral. *)
Lemma patternExec_token2 u l num rest :
  isUpper u = true -> isLower l = true -> isNumeral num -> noDigitHead rest ->
  patternExec (String u (String l (num +:+ rest))) =
  Some (mkMatch (String u (String l EmptyString)) num rest).
Proof.
  intros Hu Hl (sg & c & ds & -> & Hsg & Hc & Hds) Hrest.
  destruct (isDigit_not_sign c Hc) as [Hm _].
  destruct Hsg as [-> | ->]; rewrite ?str_app_nil, ?str_app_cons;
    cbn [patternExec optLower]; rewrite Hu, Hl; cbn [optMinus].
  - rewrite Hm. cbn [Str.spanDigits]. rewrite Hc. by rewrite spanDigits_allDigits.
  - rewrite str_app_nil, str_app_cons.
    change (Ascii.eqb "-" "-") with true. cbn match.
    cbn [Str.spanDigits]. rewrite Hc. by rewrite spanDigits_allDigits.
Qed.

End ScannerFacts.

(** ** Text around a token *)

Section TokenContext.

Lemma isUpper_facts u :
  isUpper u = true -> isLower u = false /\ isDigit u = false /\ Ascii.eqb u "-" = false.
Proof.
  intros H. split; [|split].
  - unfold isUpper, isLower in *. apply andb_true_iff in H as [_ H]. apply N.leb_le in H.
    apply andb_false_iff. left. apply N.leb_gt. lia.
  - by apply isUpper_not_digit.
  - apply Ascii.eqb_neq. intros ->. discriminate H.
Qed.

Lemma patternExec_none s : hasUpper s = false -> patternExec s = None.
Proof.
  induction s as [|c t IH]; cbn [hasUpper patternExec]; [done|].
  intros H. apply orb_false_iff in H as [-> H]. by apply IH.
Qed.

Variables (u : ascii) (rest : string).
Hypothesis Hu : isUpper u = true.

Lemma optLower_app t :
  optLower (t +:+ String u rest) = (fst (optLower t), snd (optLower t) +:+ String u rest).
Proof.
  destruct (isUpper_facts u Hu) as (Hl & _ & _).
  destruct t as [|d t']; rewrite ?str_app_nil, ?str_app_cons; cbn [optLower].
  - by rewrite Hl.
  - by destruct (isLower d).
Qed.

Lemma optMinus_app t :
  optMinus (t +:+ String u rest) = (fst (optMinus t), snd (optMinus t) +:+ String u rest).
Proof.
  destruct (isUpper_facts u Hu) as (_ & _ & Hm).
  destruct t as [|d t']; rewrite ?str_app_nil, ?str_app_cons; cbn [optMinus].
  - by rewrite Hm.
  - by destruct (Ascii.eqb d "-").
Qed.

Lemma spanDigits_app t :
  Str.spanDigits (t +:+ String u rest) =
  (fst (Str.spanDigits t), snd (Str.spanDigits t) +:+ String u rest).
Proof.
  destruct (isUpper_facts u Hu) as (_ & Hd & _).
  induction t as [|d t' IH]; rewrite ?str_app_nil, ?str_app_cons; cbn [Str.spanDigits].
  - by rewrite Hd.
  - destruct (isDigit d); [|done]. rewrite IH. by destruct (Str.spanDigits t').
Qed.

(** A match never runs over an upper-case letter: the matches inside [pre]
    are the same whatever upper-case letter follows it. *)
Lemma patternExec_app pre :
  patternExec (pre +:+ String u rest) =
  match patternExec pre with
  | Some m => Some (mkMatch (group1 m) (group2 m) (afterMatch m +:+ String u rest))
  | None => patternExec (String u rest)
  end.
Proof.
  induction pre as [|c t IH]; [done|].
  rewrite str_app_cons. cbn [patternExec]. destruct (isUpper c); [|done].
  rewrite optLower_app. destruct (optLower t) as [lo t1]. cbn [fst snd].
  rewrite optMinus_app. destruct (optMinus t1) as [sg t2]. cbn [fst snd].
  rewrite spanDigits_app. by destruct (Str.spanDigits t2) as [ds t3].
Qed.

(** Scanning [pre] and then the text from the upper-case letter on. *)
Lemma scanFrom_app n :
  forall pre atoms,
    (String.length pre <= n)%nat ->
    scanFrom (pre +:+ String u rest) atoms =
    match scanFrom pre atoms with
    | Some atoms' => scanFrom (String u rest) atoms'
    | None => None
    end.
Proof.
  induction n as [|n IH]; intros pre atoms Hn.
  - destruct pre; [|simpl in Hn; lia]. rewrite str_app_nil. by rewrite (scanFrom_done EmptyString).
  - destruct (patternExec pre) as [m|] eqn:E.
    + rewrite (scanFrom_step pre m atoms E).
      erewrite scanFrom_step by (rewrite patternExec_app, E; reflexivity).
      cbn [group1 group2 afterMatch]. apply IH.
      apply patternExec_shorter in E. lia.
    + rewrite (scanFrom_done pre atoms E).
      unfold scanFrom. cbn [execLoop]. rewrite patternExec_app, E.
      destruct (patternExec (String u rest)) as [m|] eqn:E'; [|done].
      apply patternExec_shorter in E'. apply execLoop_fuel.
      * assert (String.length (String u rest) <= String.length (pre +:+ String u rest))%nat.
        { clear. induction pre as [|c t IHp]; [done|]. rewrite str_app_cons. simpl in *. lia. }
        lia.
      * lia.
Qed.

End TokenContext.

Section PlusSign.

(** A symbol followed by a plus sign: group 2 is empty, and the plus sign is
    left in the text. *)
Lemma patternExec_plus sym t :
  isSymbol sym ->
  patternExec (sym +:+ String "+" t) = Some (mkMatch sym EmptyString (String "+" t)).
Proof.
  intros (u & Hu & [-> | (l & Hl & ->)]); rewrite !str_app_cons, str_app_nil;
    cbn [patternExec optLower]; rewrite Hu.
  - change (isLower "+") with false. cbn [optMinus].
    change (Ascii.eqb "+" "-") with false. by cbn.
  - rewrite Hl. cbn [optMinus]. change (Ascii.eqb "+" "-") with false. by cbn.
Qed.

Lemma trackedSymbols_isSymbol sym : sym ∈ trackedSymbols -> isSymbol sym.
Proof.
  unfold trackedSymbols. rewrite !elem_of_cons, elem_of_nil.
  intros [->|[->|[->|[->|[->|[->|[->|[]]]]]]]];
    eexists; (split; [|first [left; reflexivity | right; eexists; split; [|reflexivity]]]);
    reflexivity.
Qed.

Lemma countOf_formulaOfAtoms atoms sym :
  sym ∈ trackedSymbols -> countOf (formulaOfAtoms atoms) sym = atomCount atoms sym.
Proof.
  unfold trackedSymbols. rewrite !elem_of_cons, elem_of_nil.
  by intros [->|[->|[->|[->|[->|[->|[->|[]]]]]]]].
Qed.

End PlusSign.

(** ** Facts about printed numbers *)

Section NumberStringFacts.

Lemma str_app_assoc (a b c : string) : (a +:+ b) +:+ c = a +:+ b +:+ c.
Proof. induction a as [|x a IH]; [done|]. by rewrite !str_app_cons, IH. Qed.

Lemma str_app_empty (s : string) : s +:+ EmptyString = s.
Proof. induction s as [|c t IH]; [done|]. by rewrite str_app_cons, IH. Qed.

Lemma str_length_app (a b : string) :
  String.length (a +:+ b) = (String.length a + String.length b)%nat.
Proof. induction a as [|x a IH]; [done|]. rewrite str_app_cons. cbn. by rewrite IH. Qed.

Lemma hasUpper_app (a b : string) : hasUpper (a +:+ b) = hasUpper a || hasUpper b.
Proof.
  induction a as [|x a IH]; [done|]. rewrite str_app_cons. cbn [hasUpper].
  by rewrite IH, orb_assoc.
Qed.

Lemma containsChar_app c (a b : string) :
  containsChar c (a +:+ b) = containsChar c a || containsChar c b.
Proof.
  induction a as [|x a IH]; [done|]. rewrite str_app_cons. cbn [containsChar].
  by rewrite IH, orb_assoc.
Qed.

Lemma allDigits_noUpper ds : allDigits ds = true -> hasUpper ds = false.
Proof.
  induction ds as [|c t IH]; cbn [allDigits hasUpper]; [done|].
  intros H. apply andb_true_iff in H as [Hc Ht].
  by rewrite (isDigit_not_upper c Hc), IH.
Qed.

Lemma allDigits_no_e ds : allDigits ds = true -> containsChar "e" ds = false.
Proof.
  induction ds as [|c t IH]; cbn [allDigits containsChar]; [done|].
  intros H. apply andb_true_iff in H as [Hc Ht]. rewrite (IH Ht), orb_false_r.
  apply Ascii.eqb_neq. intros ->. discriminate Hc.
Qed.

Lemma isNumeral_noUpper num : isNumeral num -> hasUpper num = false.
Proof.
  intros (sg & c & ds & -> & Hsg & Hc & Hds). rewrite hasUpper_app. cbn [hasUpper].
  rewrite (isDigit_not_upper c Hc), (allDigits_noUpper ds Hds).
  by destruct Hsg as [-> | ->].
Qed.

Lemma isNumeral_no_e num : isNumeral num -> containsChar "e" num = false.
Proof.
  intros (sg & c & ds & -> & Hsg & Hc & Hds). rewrite containsChar_app.
  assert (containsChar "e" (String c ds) = false) as ->
    by (apply (allDigits_no_e (String c ds)); cbn [allDigits]; by rewrite Hc, Hds).
  by destruct Hsg as [-> | ->].
Qed.

Lemma decimalString_inj a b : decimalString a = decimalString b -> a = b.
Proof.
  intros H. apply (inj Some). by rewrite <- !parseInt_decimalString, H.
Qed.

Lemma exponentLimit_pos : 0 < exponentLimit.
Proof. reflexivity. Qed.

Lemma numberToString_small z : Z.abs z < exponentLimit -> numberToString z = decimalString z.
Proof. intros H. unfold numberToString. apply Z.ltb_lt in H. by rewrite H. Qed.

Lemma isSafeInteger_small z : isSafeInteger z -> Z.abs z < exponentLimit.
Proof.
  unfold isSafeInteger. intros H.
  assert (maxSafeInteger < exponentLimit) by reflexivity. lia.
Qed.

Lemma numberToString_safe z : isSafeInteger z -> numberToString z = decimalString z.
Proof. intros H. by apply numberToString_small, isSafeInteger_small. Qed.

Lemma stripZeros_allDigits s : allDigits s = true -> allDigits (stripZeros s) = true.
Proof.
  induction s as [|c t IH]; cbn [allDigits stripZeros]; [done|].
  intros H. apply andb_true_iff in H as [Hc Ht]. specialize (IH Ht).
  destruct (stripZeros t) as [|d t'].
  - destruct (Ascii.eqb c "0"); [done|]. cbn [allDigits]. by rewrite Hc.
  - cbn [allDigits] in *. by rewrite Hc, IH.
Qed.

(** What was stripped is a run of zeros. *)
Lemma stripZeros_zeros s : exists r, s = stripZeros s +:+ zeros r.
Proof.
  induction s as [|c t [r IH]]; [by exists O|]. cbn [stripZeros].
  destruct (stripZeros t) as [|d t'].
  - rewrite str_app_nil in IH. destruct (Ascii.eqb c "0") eqn:E.
    + apply Ascii.eqb_eq in E. subst c. exists (S r). by rewrite IH.
    + exists r. by rewrite IH.
  - exists r. rewrite str_app_cons. by rewrite <- IH.
Qed.

Lemma stripZeros_value s : stripZeros s = EmptyString -> digitsValue s 0 = 0.
Proof.
  induction s as [|c t IH]; cbn [stripZeros digitsValue]; [done|].
  destruct (stripZeros t) as [|d t']; [|done].
  destruct (Ascii.eqb c "0") eqn:E; [|done]. intros _.
  apply Ascii.eqb_eq in E. subst c. by apply IH.
Qed.

Lemma zeros_length r : String.length (zeros r) = r.
Proof. induction r as [|r IH]; [done|]. cbn. by rewrite IH. Qed.

(** The shape of a number printed in exponent notation. *)
Lemma exponentString_digits p :
  exists d m,
    stripZeros (decimalString (Z.pos p)) = String d m /\
    isDigit d = true /\ allDigits m = true /\
    exponentString (decimalString (Z.pos p)) =
      String d (fraction m +:+ "e+" +:+
                decimalString (Z.of_nat (String.length (decimalString (Z.pos p)) - 1))).
Proof.
  assert (allDigits (decimalString (Z.pos p)) = true) as Hall
    by (rewrite decimalString_pos; apply allDigits_uint).
  pose proof (stripZeros_allDigits _ Hall) as Hs.
  destruct (stripZeros (decimalString (Z.pos p))) as [|d m] eqn:E.
  - apply stripZeros_value in E. rewrite decimalString_pos, digitsValue_pos in E. done.
  - exists d, m. cbn [allDigits] in Hs. apply andb_true_iff in Hs as [Hd Hm].
    split; [done|]. split; [done|]. split; [done|].
    unfold exponentString. by rewrite E, str_app_cons.
Qed.

Lemma numberToString_shape z :
  (Z.abs z < exponentLimit /\ numberToString z = decimalString z) \/
  (exists sg p d m,
     exponentLimit <= Z.abs z /\
     ((sg = EmptyString /\ z = Z.pos p) \/ (sg = "-" /\ z = Z.neg p)) /\
     stripZeros (decimalString (Z.pos p)) = String d m /\
     isDigit d = true /\ allDigits m = true /\
     numberToString z =
       sg +:+ String d (fraction m +:+ "e+" +:+
                        decimalString (Z.of_nat (String.length (decimalString (Z.pos p)) - 1)))).
Proof.
  destruct (Z.ltb_spec (Z.abs z) exponentLimit) as [H | H].
  - left. split; [done|]. by apply numberToString_small.
  - right. pose proof exponentLimit_pos as Hpos.
    assert ((Z.abs z <? exponentLimit) = false) as Hb by (apply Z.ltb_ge; lia).
    destruct z as [|p|p]; [cbn in H; lia | |].
    + destruct (exponentString_digits p) as (d & m & Hs & Hd & Hm & He).
      exists EmptyString, p, d, m. repeat split; auto.
      unfold numberToString. rewrite Hb. cbn [Z.ltb Z.compare]. rewrite str_app_nil. exact He.
    + destruct (exponentString_digits p) as (d & m & Hs & Hd & Hm & He).
      exists "-", p, d, m. repeat split; auto.
      unfold numberToString. rewrite Hb. cbn [Z.ltb Z.compare Z.opp]. rewrite str_app_cons, str_app_nil.
      f_equal. exact He.
Qed.

Lemma fraction_noUpper m : allDigits m = true -> hasUpper (fraction m) = false.
Proof.
  destruct m as [|c t]; [done|]. intros H. cbn [fraction hasUpper].
  change (isUpper ".") with false. cbn [orb]. by apply (allDigits_noUpper (String c t)).
Qed.

Lemma fraction_no_e m : allDigits m = true -> containsChar "e" (fraction m) = false.
Proof.
  destruct m as [|c t]; [done|]. intros H. cbn [fraction containsChar].
  change (Ascii.eqb "." "e") with false. cbn [orb]. by apply (allDigits_no_e (String c t)).
Qed.

Lemma fraction_inj m1 m2 : fraction m1 = fraction m2 -> m1 = m2.
Proof. destruct m1, m2; cbn [fraction]; try done. by intros [= -> ->]. Qed.

(** A printed number is a numeral followed by text in which the scanner
    finds nothing: no text below [exponentLimit], the rest of the exponent
    notation from there on. *)
Lemma numberToString_parts z :
  exists num junk,
    numberToString z = num +:+ junk /\ isNumeral num /\
    hasUpper junk = false /\ noDigitHead junk.
Proof.
  destruct (numberToString_shape z)
    as [[_ ->] | (sg & p & d & m & _ & Hsg & _ & Hd & Hm & ->)].
  - exists (decimalString z), EmptyString. rewrite str_app_empty.
    split; [done|]. split; [apply decimalString_numeral | done].
  - exists (sg +:+ String d EmptyString),
      (fraction m +:+ "e+" +:+
       decimalString (Z.of_nat (String.length (decimalString (Z.pos p)) - 1))).
    split; [by rewrite str_app_assoc|].
    split; [|split].
    + exists sg, d, EmptyString. repeat split; auto. destruct Hsg as [[-> _] | [-> _]]; auto.
    + rewrite !hasUpper_app, (fraction_noUpper m Hm). cbn [hasUpper orb].
      rewrite orb_false_l. change (isUpper "e") with false. change (isUpper "+") with false.
      cbn [orb]. apply isNumeral_noUpper, decimalString_numeral.
    + by destruct m.
Qed.

Lemma numberToString_noUpper z : hasUpper (numberToString z) = false.
Proof.
  destruct (numberToString_parts z) as (num & junk & -> & Hnum & Hj & _).
  by rewrite hasUpper_app, (isNumeral_noUpper num Hnum), Hj.
Qed.

(** Texts without the separating character, joined by it, come apart in
    one way only. *)
Lemma app_upper_inj a1 a2 u1 u2 r1 r2 :
  hasUpper a1 = false -> hasUpper a2 = false -> isUpper u1 = true -> isUpper u2 = true ->
  a1 +:+ String u1 r1 = a2 +:+ String u2 r2 -> a1 = a2 /\ String u1 r1 = String u2 r2.
Proof.
  revert a2. induction a1 as [|x a1 IH]; intros [|y a2] H1 H2 Hu1 Hu2;
    rewrite ?str_app_nil, ?str_app_cons; cbn [hasUpper] in *.
  - done.
  - intros [= -> _]. apply orb_false_iff in H2 as [H2 _]. congruence.
  - intros [= -> _]. apply orb_false_iff in H1 as [H1 _]. congruence.
  - intros [= -> H]. apply orb_false_iff in H1 as [_ H1]. apply orb_false_iff in H2 as [_ H2].
    destruct (IH a2 H1 H2 Hu1 Hu2 H) as [-> ?]. by split.
Qed.

Lemma app_e_inj a1 a2 r1 r2 :
  containsChar "e" a1 = false -> containsChar "e" a2 = false ->
  a1 +:+ String "e" r1 = a2 +:+ String "e" r2 -> a1 = a2 /\ r1 = r2.
Proof.
  revert a2. induction a1 as [|x a1 IH]; intros [|y a2] H1 H2;
    rewrite ?str_app_nil, ?str_app_cons; cbn [containsChar] in *.
  - by intros [= ->].
  - intros [= <- _]. by rewrite Ascii.eqb_refl in H2.
  - intros [= -> _]. by rewrite Ascii.eqb_refl in H1.
  - intros [= -> H]. apply orb_false_iff in H1 as [_ H1]. apply orb_false_iff in H2 as [_ H2].
    destruct (IH a2 H1 H2 H) as [-> ->]. by split.
Qed.

Lemma exponentForm_has_e sg d fr x :
  containsChar "e" (sg +:+ String d (fr +:+ "e+" +:+ x)) = true.
Proof.
  rewrite containsChar_app. cbn [containsChar]. rewrite containsChar_app.
  change ("e+" +:+ x) with (String "e" (String "+" x)). cbn [containsChar].
  change (Ascii.eqb "e" "e") with true. cbn [orb]. by rewrite !orb_true_r.
Qed.

(** Number::toString tells integers apart. *)
Lemma numberToString_inj a b : numberToString a = numberToString b -> a = b.
Proof.
  destruct (numberToString_shape a)
    as [[Ha ->] | (sga & pa & da & ma & Ha & Hsga & Hsa & Hda & Hma & ->)];
  destruct (numberToString_shape b)
    as [[Hb ->] | (sgb & pb & db & mb & Hb & Hsgb & Hsb & Hdb & Hmb & ->)].
  - apply decimalString_inj.
  - intros H. apply (f_equal (containsChar "e")) in H.
    rewrite (isNumeral_no_e _ (decimalString_numeral a)) in H.
    by rewrite exponentForm_has_e in H.
  - intros H. apply (f_equal (containsChar "e")) in H.
    rewrite (isNumeral_no_e _ (decimalString_numeral b)) in H.
    by rewrite exponentForm_has_e in H.
  - intros H.
    assert (sga = sgb /\
            String da (fraction ma +:+ "e+" +:+
              decimalString (Z.of_nat (String.length (decimalString (Z.pos pa)) - 1))) =
            String db (fraction mb +:+ "e+" +:+
              decimalString (Z.of_nat (String.length (decimalString (Z.pos pb)) - 1))))
      as [Hsg Hbody].
    { destruct Hsga as [[-> _] | [-> _]]; destruct Hsgb as [[-> _] | [-> _]];
        rewrite ?(str_app_cons "-"%char EmptyString), ?(str_app_nil (String _ _)) in H.
      - done.
      - injection H as -> _. discriminate Hda.
      - injection H as <- _. discriminate Hdb.
      - injection H as -> H. by rewrite H. }
    injection Hbody as -> Hrest.
    change ("e+" +:+ ?x) with (String "e" (String "+" x)) in Hrest.
    apply app_e_inj in Hrest as [Hfr Hexp]; [|by apply fraction_no_e ..].
    apply fraction_inj in Hfr. subst mb. injection Hexp as Hexp.
    apply decimalString_inj, Nat2Z.inj in Hexp.
    destruct (stripZeros_zeros (decimalString (Z.pos pa))) as [ra Hra].
    destruct (stripZeros_zeros (decimalString (Z.pos pb))) as [rb Hrb].
    rewrite Hsa in Hra. rewrite Hsb in Hrb.
    assert (ra = rb) as ->.
    { rewrite Hra, Hrb in Hexp. rewrite !str_length_app, !zeros_length in Hexp.
      cbn [String.length] in Hexp. lia. }
    rewrite <- Hrb in Hra. apply decimalString_inj in Hra. injection Hra as ->.
    destruct Hsga as [[Hs1 ->] | [Hs1 ->]]; destruct Hsgb as [[Hs2 ->] | [Hs2 ->]];
      congruence.
Qed.

End NumberStringFacts.

(** ** The canonical string and the parser *)

Section RoundTrip.

Lemma str_app_nil_r (s : string) : s +:+ EmptyString = s.
Proof. induction s as [|c t IH]; [done|]. by rewrite str_app_cons, IH. Qed.

Ltac scan_token lem :=
  erewrite scanFrom_step by (apply lem; [reflexivity .. | apply decimalString_numeral | done]);
  cbn [group1 group2 afterMatch]; rewrite parseInt_decimalString; cbn [orZero default].

(** The atoms object after scanning the canonical string of a formula with
    safe counts. *)
Lemma scanFrom_canonical f :
  safeFormula f ->
  scanFrom (toFormulaString f) ∅ =
  Some (<["S" := sulfur f]> (<["P" := phosphorus f]> (<["O" := oxygen f]>
       (<["N" := nitrogen f]> (<["Cl" := chlorine f]> (<["H" := hydrogen f]>
       (<["C" := carbon f]> ∅))))))).
Proof.
  intros (Hc & Hh & Hn & Ho & Hs & Hp & Hcl). unfold toFormulaString.
  rewrite (numberToString_safe _ Hc), (numberToString_safe _ Hh), (numberToString_safe _ Hn),
    (numberToString_safe _ Ho), (numberToString_safe _ Hs), (numberToString_safe _ Hp),
    (numberToString_safe _ Hcl).
  rewrite <- (str_app_nil_r (decimalString (sulfur f))).
  rewrite !str_app_cons, !str_app_nil.
  scan_token patternExec_token1.
  scan_token patternExec_token1.
  scan_token patternExec_token2.
  scan_token patternExec_token1.
  scan_token patternExec_token1.
  scan_token patternExec_token1.
  scan_token patternExec_token1.
  by rewrite scanFrom_done.
Qed.

Lemma parse_toFormulaString f :
  safeFormula f -> parseFormulaString (toFormulaString f) = f.
Proof.
  intros Hsafe. rewrite (parseFormulaString_scanFrom _ _ (scanFrom_canonical f Hsafe)).
  destruct f as [c h n o s p cl]. unfold formulaOfAtoms, atomCount. cbn [carbon hydrogen
    nitrogen oxygen sulfur phosphorus chlorine].
  repeat (rewrite lookup_insert_eq || rewrite lookup_insert_ne by discriminate).
  reflexivity.
Qed.

(** The canonical string tells formulas apart: the upper-case letters cut it
    into the seven printed counts. *)
Lemma toFormulaString_inj f g : toFormulaString f = toFormulaString g -> f = g.
Proof.
  destruct f as [c h n o s p cl], g as [c' h' n' o' s' p' cl'].
  unfold toFormulaString. cbn [carbon hydrogen nitrogen oxygen sulfur phosphorus chlorine].
  rewrite !str_app_cons, !str_app_nil. intros H.
  injection H as H.
  apply app_upper_inj in H as [Hc H]; [|apply numberToString_noUpper .. | done | done].
  injection H as H.
  apply app_upper_inj in H as [Hh H]; [|apply numberToString_noUpper .. | done | done].
  injection H as H.
  apply app_upper_inj in H as [Hcl H]; [|apply numberToString_noUpper .. | done | done].
  injection H as H.
  apply app_upper_inj in H as [Hn H]; [|apply numberToString_noUpper .. | done | done].
  injection H as H.
  apply app_upper_inj in H as [Ho H]; [|apply numberToString_noUpper .. | done | done].
  injection H as H.
  apply app_upper_inj in H as [Hp H]; [|apply numberToString_noUpper .. | done | done].
  injection H as H.
  apply numberToString_inj in Hc, Hh, Hcl, Hn, Ho, Hp, H.
  congruence.
Qed.

End RoundTrip.

(** ** The matching engine against the flat double loop *)

Section EngineFacts.

Lemma buildIndex_snoc (fs : list Entry) (e : Entry) :
  buildIndex (fs ++ [e]) = <[entryKey e := e]> (buildIndex fs).
Proof. unfold buildIndex. by rewrite fold_left_app. Qed.

(** Last write wins: the entry found under a key is the last one of the
    catalog with that key. *)
Lemma buildIndex_lookup (fs : list Entry) (k : string) :
  buildIndex fs !! k = last (List.filter (fun e => String.eqb (entryKey e) k) fs).
Proof.
  induction fs as [|e fs IH] using rev_ind; [done|].
  rewrite buildIndex_snoc, List.filter_app. cbn [List.filter].
  destruct (String.eqb (entryKey e) k) eqn:E.
  - apply String.eqb_eq in E. subst k. by rewrite lookup_insert_eq, last_snoc.
  - apply String.eqb_neq in E. by rewrite lookup_insert_ne, app_nil_r.
Qed.

Lemma buildIndex_sound (fs : list Entry) (k : string) (m : Entry) :
  buildIndex fs !! k = Some m -> m ∈ fs /\ entryKey m = k.
Proof.
  rewrite buildIndex_lookup. intros H. apply last_Some_elem_of in H.
  apply list_elem_of_In, List.filter_In in H as [H E].
  apply String.eqb_eq in E. split; [by apply list_elem_of_In|done].
Qed.

Lemma correctionStep_emit index e acc c :
  correctionStep index e acc c = acc ++ option_list (emitMatch index e c).
Proof.
  unfold correctionStep, emitMatch.
  destruct (index !! _) as [m|]; [|by rewrite app_nil_r].
  destruct (String.eqb (id m) (id e)) eqn:E.
  - apply String.eqb_eq in E. rewrite bool_decide_eq_false_2 by (by intros H; apply H).
    by rewrite app_nil_r.
  - apply String.eqb_neq in E. by rewrite bool_decide_eq_true_2.
Qed.

Lemma entryStep_emit index cs :
  forall acc e, entryStep index cs acc e = acc ++ omap (emitMatch index e) cs.
Proof.
  unfold entryStep. induction cs as [|c cs IH]; intros acc e; cbn [fold_left].
  - by rewrite app_nil_r.
  - rewrite IH, correctionStep_emit, <- app_assoc. f_equal.
    cbn [omap list_omap]. by destruct (emitMatch index e c).
Qed.

Lemma entries_fold_flat index cs es :
  forall acc,
    fold_left (entryStep index cs) es acc =
    acc ++ flat_map (fun e => omap (emitMatch index e) cs) es.
Proof.
  induction es as [|e es IH]; intros acc; cbn [fold_left flat_map].
  - by rewrite app_nil_r.
  - by rewrite IH, entryStep_emit, <- app_assoc.
Qed.

Lemma slice_batch {A} (l : list A) (i n : nat) :
  slice l i (Nat.min (i + n) (length l)) = take n (drop i l).
Proof.
  unfold slice. destruct (decide (i + n <= length l)%nat).
  - f_equal. lia.
  - rewrite (take_ge (drop i l) n) by (rewrite length_drop; lia).
    apply take_ge. rewrite length_drop. lia.
Qed.

(** With a batch size of at least 1 and one unit of fuel per remaining entry,
    the batched loop folds the entry step over the remaining entries. *)
Lemma batchLoop_fold fuel bs index fs cs :
  (1 <= bs)%nat ->
  forall i acc,
    (length fs - i <= fuel)%nat ->
    batchLoop fuel bs index fs cs i acc =
    Some (fold_left (entryStep index cs) (drop i fs) acc).
Proof.
  intros Hbs. induction fuel as [|fuel IH]; intros i acc Hfuel.
  - cbn [batchLoop]. destruct (i <? length fs)%nat eqn:E.
    + apply Nat.ltb_lt in E. lia.
    + apply Nat.ltb_ge in E. by rewrite drop_ge.
  - cbn [batchLoop]. destruct (i <? length fs)%nat eqn:E.
    + apply Nat.ltb_lt in E. rewrite IH by lia.
      rewrite slice_batch, <- fold_left_app. f_equal.
      rewrite <- drop_drop. by rewrite take_drop.
    + apply Nat.ltb_ge in E. by rewrite drop_ge.
Qed.

Lemma matchBatched_flat bs fs cs :
  (1 <= bs)%nat -> matchBatched bs fs cs = Some (matchFlat fs cs).
Proof.
  intros Hbs. unfold matchBatched. rewrite batchLoop_fold by (done || lia).
  by rewrite drop_0, entries_fold_flat.
Qed.

Lemma emitMatch_sound fs e c m :
  emitMatch (buildIndex fs) e c = Some m ->
  originalEntry m = e /\ appliedCorrection m = formula c /\ matchedEntry m ∈ fs /\
  toFormulaString (add (originalFormula e) (formula c)) = entryKey (matchedEntry m) /\
  id (matchedEntry m) ≠ id e.
Proof.
  unfold emitMatch. destruct (buildIndex fs !! _) as [t|] eqn:E; [|done].
  case_bool_decide as Hid; [|done]. intros [= <-]. cbn.
  apply buildIndex_sound in E as [Hin Hk]. by rewrite Hk.
Qed.

Lemma matchFlat_elem fs cs m :
  m ∈ matchFlat fs cs <->
  exists e c, e ∈ fs /\ c ∈ cs /\ emitMatch (buildIndex fs) e c = Some m.
Proof.
  unfold matchFlat. rewrite list_elem_of_In, in_flat_map. split.
  - intros (e & He & Hm). apply list_elem_of_In, list_elem_of_omap in Hm as (c & Hc & Hm).
    exists e, c. by rewrite list_elem_of_In.
  - intros (e & c & He & Hc & Hm). exists e. split; [by apply list_elem_of_In|].
    apply list_elem_of_In, list_elem_of_omap. by exists c.
Qed.

End EngineFacts.

(** ** Facts about the loaders and the export *)

Section LoaderFacts.

Lemma header_absent (fields : list string) (col : string) :
  existsb (fun header => String.eqb (Str.trim header) col) fields = false <->
  col ∉ (Str.trim <$> fields).
Proof.
  induction fields as [|h t IH]; cbn [existsb fmap list_fmap].
  - split; [intros _; apply not_elem_of_nil | done].
  - rewrite orb_false_iff, IH, not_elem_of_cons, String.eqb_neq.
    split; intros [H1 H2]; split; auto.
Qed.

Lemma missingColumns_cases (fields : list string) :
  "formulas" ∉ (Str.trim <$> fields) ->
  missingColumns fields =
  if existsb (fun header => String.eqb (Str.trim header) "ID") fields
  then ["formulas"] else ["ID"; "formulas"].
Proof.
  intros H. apply header_absent in H. unfold missingColumns, requiredColumns.
  cbn [List.filter]. rewrite H. cbn [negb].
  by destruct (existsb (fun header => String.eqb (Str.trim header) "ID") fields).
Qed.

Lemma applyCorrections_run (st : State) :
  formulas st ≠ [] -> corrections st ≠ [] ->
  results (applyCorrections st) = matchFlat (formulas st) (corrections st) /\
  error (applyCorrections st) = error st.
Proof.
  intros Hf Hc. unfold applyCorrections.
  destruct (formulas st) as [|e fs] eqn:Ef; [done|].
  destruct (corrections st) as [|c cs] eqn:Ec; [done|].
  cbn [length Nat.eqb orb].
  cbn [formulas corrections setIsProcessing setProcessProgress setIsLoading].
  rewrite Ef, Ec. by rewrite matchBatched_flat by (unfold batchSize; lia).
Qed.

End LoaderFacts.

Section ExportFacts.

Lemma emitMatch_original index e c m : emitMatch index e c = Some m -> originalEntry m = e.
Proof.
  unfold emitMatch. destruct (index !! _) as [t|]; [|done].
  case_bool_decide; [|done]. by intros [= <-].
Qed.

Lemma matchesFor_app rs1 rs2 entry :
  matchesFor (rs1 ++ rs2) entry = matchesFor rs1 entry ++ matchesFor rs2 entry.
Proof. apply List.filter_app. Qed.

Lemma matchesFor_emit index e cs entry :
  matchesFor (omap (emitMatch index e) cs) entry =
  if String.eqb (id e) (id entry) then omap (emitMatch index e) cs else [].
Proof.
  induction cs as [|c cs IH]; cbn [omap list_omap].
  - by destruct (String.eqb (id e) (id entry)).
  - destruct (emitMatch index e c) as [m|] eqn:E; [|exact IH].
    apply emitMatch_original in E. unfold matchesFor in *. cbn [List.filter].
    rewrite E, IH. by destruct (String.eqb (id e) (id entry)).
Qed.

Lemma matchesFor_flat_other index cs es entry :
  id entry ∉ (id <$> es) ->
  matchesFor (flat_map (fun e => omap (emitMatch index e) cs) es) entry = [].
Proof.
  induction es as [|e es IH]; cbn [flat_map fmap list_fmap]; [done|].
  rewrite not_elem_of_cons. intros [Hne Hes].
  rewrite matchesFor_app, matchesFor_emit, IH by done.
  apply not_eq_sym, String.eqb_neq in Hne. by rewrite Hne.
Qed.

(** With distinct ids in the catalog, the matches found for an entry in the
    result of the engine are the ones emitted for it, in the order of the
    corrections. *)
Lemma matchesFor_flat index cs es entry :
  NoDup (id <$> es) -> entry ∈ es ->
  matchesFor (flat_map (fun e => omap (emitMatch index e) cs) es) entry =
  omap (emitMatch index entry) cs.
Proof.
  induction es as [|e es IH]; cbn [flat_map fmap list_fmap]; [by intros _ ?%elem_of_nil|].
  rewrite NoDup_cons, elem_of_cons. intros [Hnotin Hnd] Hin.
  rewrite matchesFor_app, matchesFor_emit.
  destruct Hin as [-> | Hin].
  - rewrite String.eqb_refl, matchesFor_flat_other by done. by rewrite app_nil_r.
  - assert (id e ≠ id entry) as Hne.
    { intros Heq. apply Hnotin. rewrite Heq. by apply list_elem_of_fmap_2. }
    apply String.eqb_neq in Hne. rewrite Hne. by apply IH.
Qed.

Lemma matchesFor_sublist rs entry : matchesFor rs entry `sublist_of` rs.
Proof.
  induction rs as [|r rs IH]; cbn [matchesFor List.filter]; [constructor|].
  destruct (String.eqb _ _); by constructor.
Qed.

Lemma matchesFor_elem rs entry m :
  m ∈ matchesFor rs entry <-> m ∈ rs /\ id (originalEntry m) = id entry.
Proof.
  unfold matchesFor. by rewrite !list_elem_of_In, List.filter_In, String.eqb_eq.
Qed.

End ExportFacts.

(** ** Tokens in context *)

Section TokenFacts.

Lemma tokenBoundary_noDigitHead rest : tokenBoundary rest -> noDigitHead rest.
Proof. destruct rest as [|c t]; [done|]. apply isUpper_not_digit. Qed.

Lemma scanFrom_total s atoms : exists atoms', scanFrom s atoms = Some atoms'.
Proof. apply (execLoop_total (S (String.length s))). lia. Qed.

(** A symbol followed by a numeral is one match. *)
Lemma patternExec_token sym num rest :
  isSymbol sym -> isNumeral num -> noDigitHead rest ->
  patternExec (sym +:+ num +:+ rest) = Some (mkMatch sym num rest).
Proof.
  intros (u & Hu & [-> | (l & Hl & ->)]) Hnum Hrest; rewrite !str_app_cons, str_app_nil.
  - by apply patternExec_token1.
  - by apply patternExec_token2.
Qed.

(** Text without an upper-case letter is passed over. *)
Lemma patternExec_skip j rest :
  hasUpper j = false -> patternExec (j +:+ rest) = patternExec rest.
Proof.
  induction j as [|c t IH]; [done|]. cbn [hasUpper]. intros H.
  apply orb_false_iff in H as [Hc Ht]. rewrite str_app_cons. cbn [patternExec].
  rewrite Hc. by apply IH.
Qed.

Lemma scanFrom_skip j rest atoms :
  hasUpper j = false -> scanFrom (j +:+ rest) atoms = scanFrom rest atoms.
Proof.
  intros Hj. unfold scanFrom. cbn [execLoop]. rewrite (patternExec_skip j rest Hj).
  destruct (patternExec rest) as [m|] eqn:E; [|done].
  apply patternExec_shorter in E. apply execLoop_fuel; rewrite ?str_length_app; lia.
Qed.

Lemma noDigitHead_app j rest : noDigitHead j -> noDigitHead rest -> noDigitHead (j +:+ rest).
Proof. by destruct j. Qed.

(** A symbol followed by the digits of a safe integer sets the count to that
    integer. *)
Lemma scanFrom_token sym z rest atoms :
  isSafeInteger z -> isSymbol sym -> noDigitHead rest ->
  scanFrom (sym +:+ numberToString z +:+ rest) atoms = scanFrom rest (<[sym := z]> atoms).
Proof.
  intros Hz Hsym Hrest. rewrite (numberToString_safe z Hz).
  rewrite (scanFrom_step _ _ atoms
             (patternExec_token sym _ rest Hsym (decimalString_numeral z) Hrest)).
  cbn [group1 group2 afterMatch]. by rewrite parseInt_decimalString.
Qed.

(** A symbol followed by any printed number sets the count to what the
    parser reads from the print, the same in every context. *)
Lemma scanFrom_printed z :
  exists v, forall sym rest atoms,
    isSymbol sym -> noDigitHead rest ->
    scanFrom (sym +:+ numberToString z +:+ rest) atoms = scanFrom rest (<[sym := v]> atoms).
Proof.
  destruct (numberToString_parts z) as (num & junk & -> & Hnum & Hj & Hd).
  exists (orZero (parseInt num)). intros sym rest atoms Hsym Hrest.
  rewrite str_app_assoc.
  rewrite (scanFrom_step _ _ atoms
             (patternExec_token sym num (junk +:+ rest) Hsym Hnum
                (noDigitHead_app junk rest Hd Hrest))).
  cbn [group1 group2 afterMatch]. by apply scanFrom_skip.
Qed.

(** The text before a symbol is scanned on its own. *)
Lemma scanFrom_before_symbol pre sym rest atoms atoms' :
  isSymbol sym -> scanFrom pre atoms = Some atoms' ->
  scanFrom (pre +:+ sym +:+ rest) atoms = scanFrom (sym +:+ rest) atoms'.
Proof.
  intros (u & Hu & [-> | (l & Hl & ->)]) Hpre; rewrite !str_app_cons, str_app_nil;
    rewrite (scanFrom_app u _ Hu (String.length pre)) by lia; by rewrite Hpre.
Qed.

Lemma scanFrom_before_boundary pre rest atoms atoms' :
  tokenBoundary rest -> scanFrom pre atoms = Some atoms' ->
  scanFrom (pre +:+ rest) atoms = scanFrom rest atoms'.
Proof.
  destruct rest as [|u r]; intros Hb Hpre.
  - by rewrite str_app_nil_r, Hpre, (scanFrom_done EmptyString).
  - rewrite (scanFrom_app u _ Hb (String.length pre)) by lia. by rewrite Hpre.
Qed.

Lemma atomCount_insert (atoms : gmap string Z) k v j :
  atomCount (<[k := v]> atoms) j = if decide (k = j) then v else atomCount atoms j.
Proof. unfold atomCount. rewrite lookup_insert. by destruct (decide (k = j)). Qed.

(** The formula only depends on what the formula read so far was. *)
Lemma formulaOfAtoms_insert_congr (a1 a2 : gmap string Z) k v :
  formulaOfAtoms a1 = formulaOfAtoms a2 ->
  formulaOfAtoms (<[k := v]> a1) = formulaOfAtoms (<[k := v]> a2).
Proof.
  unfold formulaOfAtoms. intros [= H1 H2 H3 H4 H5 H6 H7].
  rewrite !atomCount_insert. by rewrite H1, H2, H3, H4, H5, H6, H7.
Qed.

Lemma formulaOfAtoms_insert_untracked (atoms : gmap string Z) k v :
  k ∉ trackedSymbols -> formulaOfAtoms (<[k := v]> atoms) = formulaOfAtoms atoms.
Proof.
  unfold trackedSymbols. rewrite !not_elem_of_cons.
  intros (H1 & H2 & H3 & H4 & H5 & H6 & H7 & _).
  unfold formulaOfAtoms. rewrite !atomCount_insert.
  by rewrite !decide_False by done.
Qed.

Lemma execLoop_formula fuel :
  forall s a1 a2,
    formulaOfAtoms a1 = formulaOfAtoms a2 ->
    formulaOfAtoms <$> execLoop fuel s a1 = formulaOfAtoms <$> execLoop fuel s a2.
Proof.
  induction fuel as [|fuel IH]; intros s a1 a2 H; [done|]. cbn [execLoop].
  destruct (patternExec s) as [m|]; [|cbn; by rewrite H].
  by apply IH, formulaOfAtoms_insert_congr.
Qed.

(** The count read for a symbol only depends on what its count was. *)
Lemma execLoop_count fuel k :
  forall s a1 a2,
    atomCount a1 k = atomCount a2 k ->
    (fun a => atomCount a k) <$> execLoop fuel s a1 =
    (fun a => atomCount a k) <$> execLoop fuel s a2.
Proof.
  induction fuel as [|fuel IH]; intros s a1 a2 H; [done|]. cbn [execLoop].
  destruct (patternExec s) as [m|]; [|cbn; by rewrite H].
  apply IH. rewrite !atomCount_insert. by destruct (decide (group1 m = k)).
Qed.

Lemma parseFormulaString_fmap s :
  Some (parseFormulaString s) = formulaOfAtoms <$> scanFrom s ∅.
Proof.
  destruct (scanFrom_total s ∅) as [atoms H]. rewrite H.
  by rewrite (parseFormulaString_scanFrom _ _ H).
Qed.

(** A symbol followed by a character that is no part of a count. *)
Lemma patternExec_separator sym x t :
  isSymbol sym -> isLower x = false -> isDigit x = false -> Ascii.eqb x "-" = false ->
  patternExec (sym +:+ String x t) = Some (mkMatch sym EmptyString (String x t)).
Proof.
  intros (u & Hu & [-> | (l & Hl & ->)]) Hx1 Hx2 Hx3; rewrite !str_app_cons, str_app_nil;
    cbn [patternExec optLower]; rewrite Hu.
  - rewrite Hx1. cbn [optMinus]. rewrite Hx3. cbn [Str.spanDigits]. by rewrite Hx2.
  - rewrite Hl. cbn [optMinus]. rewrite Hx3. cbn [Str.spanDigits]. by rewrite Hx2.
Qed.

End TokenFacts.

(** ** The claims about the parser and the canonical string *)




(** C6. parseFormulaString is total, and what is missing or cannot be read
    counts as zero: the scan of every text ends with an atoms object, a text
    without any upper-case letter gives the all-zero formula, and so do the
    empty text, "Xy" and "C" (a symbol without a count); "C3H8" gives carbon 3,
    hydrogen 8 and 0 for every other element. *)
Theorem parse_total_and_defaults :
  (forall text : string,
     exists atoms, scanAtoms text = Some atoms /\
                   parseFormulaString text = formulaOfAtoms atoms) /\
  (forall text : string, hasUpper text = false -> parseFormulaString text = zeroFormula) /\
  parseFormulaString "" = zeroFormula /\
  parseFormulaString "Xy" = zeroFormula /\
  parseFormulaString "C" = zeroFormula /\
  parseFormulaString "C3H8" = mkFormula 3 8 0 0 0 0 0.
Proof.
  split; [|split; [|repeat split; reflexivity]].
  - intros text. destruct (scanAtoms_total text) as [atoms H].
    exists atoms. split; [done|]. unfold parseFormulaString. by rewrite H.
  - intros text H. apply patternExec_none in H.
    by rewrite (parseFormulaString_scanFrom _ _ (scanFrom_done text ∅ H)).
Qed.

Lemma parse_total_and_defaults_witness :
  hasUpper "12-x y" = false /\ parseFormulaString "12-x y" = zeroFormula.
Proof.
  split; [reflexivity|].
  apply (proj1 (proj2 parse_total_and_defaults)). reflexivity.
Defined.

(** C9. The parser knows a minus sign on a count but no plus sign. For every
    tracked symbol followed by a plus sign, whatever text comes before the
    symbol and after the plus sign: the text parses to the same formula as
    the text with the count 0 written between the symbol and the plus sign;
    and the count of that element is the one the text after the plus sign
    gives on its own, so the digits behind the plus sign are never read as
    the count of the symbol. When the text after the plus sign has no
    upper-case letter (digits, say), the count of the element is 0, and the
    symbol, the plus sign and that text alone parse to the all-zero formula,
    as "C+3" does. *)
Theorem plus_sign_not_recognized (pre sym t : string) :
  sym ∈ trackedSymbols ->
  parseFormulaString (pre +:+ sym +:+ String "+" t) =
    parseFormulaString (pre +:+ sym +:+ String "0" (String "+" t)) /\
  countOf (parseFormulaString (pre +:+ sym +:+ String "+" t)) sym =
    countOf (parseFormulaString t) sym /\
  (hasUpper t = false ->
   countOf (parseFormulaString (pre +:+ sym +:+ String "+" t)) sym = 0 /\
   parseFormulaString (sym +:+ String "+" t) = zeroFormula).
Proof.
  intros Hsym. pose proof (trackedSymbols_isSymbol sym Hsym) as Hs.
  destruct (scanFrom_total pre ∅) as [atoms Hpre].
  assert (forall a, scanFrom (sym +:+ String "+" t) a = scanFrom t (<[sym := 0]> a)) as Hstep.
  { intros a. rewrite (scanFrom_step _ _ _ (patternExec_plus sym t Hs)).
    cbn [group1 group2 afterMatch]. exact (scanFrom_skip "+" t _ eq_refl). }
  assert (scanFrom (pre +:+ sym +:+ String "+" t) ∅ = scanFrom t (<[sym := 0]> atoms)) as Hplus.
  { by rewrite (scanFrom_before_symbol pre sym _ ∅ atoms Hs Hpre), Hstep. }
  assert (scanFrom (pre +:+ sym +:+ String "0" (String "+" t)) ∅
          = scanFrom t (<[sym := 0]> atoms)) as Hzero.
  { rewrite (scanFrom_before_symbol pre sym _ ∅ atoms Hs Hpre).
    assert (isNumeral "0") as H0
      by (exists EmptyString, "0"%char, EmptyString; repeat split; auto).
    assert (noDigitHead (String "+" t)) as Hd by reflexivity.
    change (String "0" (String "+" t)) with ("0" +:+ String "+" t).
    rewrite (scanFrom_step _ _ _ (patternExec_token sym "0" (String "+" t) Hs H0 Hd)).
    cbn [group1 group2 afterMatch]. exact (scanFrom_skip "+" t _ eq_refl). }
  destruct (scanFrom_total t (<[sym := 0]> atoms)) as [a1 H1].
  destruct (scanFrom_total t ∅) as [a2 H2].
  assert (atomCount a1 sym = atomCount a2 sym) as Hcount.
  { pose proof (execLoop_count (S (String.length t)) sym t (<[sym := 0]> atoms) ∅) as H.
    fold (scanFrom t (<[sym := 0]> atoms)) in H. fold (scanFrom t ∅) in H.
    rewrite H1, H2 in H. cbn in H. apply (inj Some), H.
    rewrite atomCount_insert, decide_True by done. done. }
  rewrite H1 in Hplus, Hzero.
  rewrite (parseFormulaString_scanFrom _ _ Hplus), (parseFormulaString_scanFrom _ _ Hzero).
  split; [done|]. split.
  - rewrite (parseFormulaString_scanFrom _ _ H2), !countOf_formulaOfAtoms by done.
    exact Hcount.
  - intros Ht. rewrite (scanFrom_done t) in H1, H2 by (by apply patternExec_none).
    injection H1 as <-. injection H2 as <-. split.
    + rewrite countOf_formulaOfAtoms, atomCount_insert, decide_True by done. done.
    + assert (scanFrom (sym +:+ String "+" t) ∅ = Some (<[sym := 0]> ∅)) as H
        by (rewrite Hstep; by apply scanFrom_done, patternExec_none).
      rewrite (parseFormulaString_scanFrom _ _ H).
      unfold formulaOfAtoms. rewrite !atomCount_insert.
      by repeat destruct (decide _).
Qed.

Lemma plus_sign_not_recognized_witness :
  parseFormulaString "H2C+3H8" = parseFormulaString "H2C0+3H8" /\
  countOf (parseFormulaString "H2C+3H8") "C" = 0 /\
  countOf (parseFormulaString "H2C5C+3") "C" = 0 /\
  parseFormulaString "C+3" = zeroFormula.
Proof.
  assert ("C" ∈ trackedSymbols) as Hin by (unfold trackedSymbols; constructor).
  destruct (plus_sign_not_recognized "H2" "C" "3H8" Hin) as (Ha & Hb & _).
  destruct (plus_sign_not_recognized "H2C5" "C" "3" Hin) as (_ & _ & Hc).
  destruct (Hc eq_refl) as [Hd He].
  split; [exact Ha | split; [exact Hb | split; [exact Hd | exact He]]].
Defined.

(** ** The claims about the matching engine *)

(** C1. Every match that the matching loop emits satisfies the definition of
    a match: for all entries and corrections the loop completes, and each
    record of its result has the canonical string of originalEntry's formula
    plus appliedCorrection equal to that of matchedEntry's formula (so the two
    formulas have the same counts), and different ids on its two entries; so no record, and none with an all-zero
    correction either, matches an entry with itself.  Its two entries come
    from the catalog and its correction from the correction list.  This
    result is what applyCorrections stores when both lists are non-empty. *)
Theorem matches_satisfy_definition (fs : list Entry) (cs : list Correction) :
  exists rs, matchBatched batchSize fs cs = Some rs /\
    (forall st, formulas st = fs -> corrections st = cs -> fs ≠ [] -> cs ≠ [] ->
                results (applyCorrections st) = rs) /\
    forall m, m ∈ rs ->
      toFormulaString (add (originalFormula (originalEntry m)) (appliedCorrection m)) =
        toFormulaString (originalFormula (matchedEntry m)) /\
      add (originalFormula (originalEntry m)) (appliedCorrection m) =
        originalFormula (matchedEntry m) /\
      id (originalEntry m) ≠ id (matchedEntry m) /\
      (appliedCorrection m = zeroFormula -> id (originalEntry m) ≠ id (matchedEntry m)) /\
      originalEntry m ∈ fs /\ matchedEntry m ∈ fs /\
      (exists c, c ∈ cs /\ appliedCorrection m = formula c).
Proof.
  exists (matchFlat fs cs). split; [apply matchBatched_flat; unfold batchSize; lia|].
  split; [intros st <- <- Hf Hc; by apply applyCorrections_run|].
  intros m Hm. apply matchFlat_elem in Hm as (e & c & He & Hc & Hm).
  apply emitMatch_sound in Hm as (Ho & Ha & Hin & Hkey & Hid).
  rewrite Ho, Ha.
  assert (id e ≠ id (matchedEntry m)) as Hne by (intros H; by apply Hid).
  split; [exact Hkey|]. split; [by apply toFormulaString_inj|].
  split; [exact Hne|]. split; [intros _; exact Hne|].
  split; [exact He|]. split; [exact Hin|]. by exists c.
Qed.

Lemma matches_satisfy_definition_witness :
  toFormulaString (add (originalFormula Demo.entry1) zeroFormula) =
    toFormulaString (originalFormula Demo.entry2) /\
  id Demo.entry1 ≠ id Demo.entry2.
Proof.
  destruct (matches_satisfy_definition [Demo.entry1; Demo.entry2] [mkCorrection zeroFormula])
    as (rs & Hrs & _ & H).
  vm_compute in Hrs. injection Hrs as <-.
  destruct (H Demo.theMatch) as (H1 & _ & H2 & _); [constructor|].
  split; [exact H1 | exact H2].
Defined.

(** C2. The lookup map is last-write-wins: the entry found under a canonical
    string is the last entry of the catalog with that string, so an entry added
    after the others is the one found under its own string.  The catalog of
    the entries "1" and "2", both C1H1, with the one zero correction C0H0, gives
    exactly one match, from "1" to "2", and none from "2" to "1". *)
Theorem index_last_write_wins :
  (forall (fs : list Entry) (k : string),
     buildIndex fs !! k = last (List.filter (fun e => String.eqb (entryKey e) k) fs)) /\
  (forall (fs : list Entry) (e : Entry), buildIndex (fs ++ [e]) !! entryKey e = Some e) /\
  formulas Demo.bothLoaded = [Demo.entry1; Demo.entry2] /\
  corrections Demo.bothLoaded = [mkCorrection (parseFormulaString "C0H0")] /\
  matchBatched batchSize (formulas Demo.bothLoaded) (corrections Demo.bothLoaded) =
    Some [mkResult Demo.entry1 Demo.entry2 zeroFormula] /\
  results (applyCorrections Demo.bothLoaded) = [mkResult Demo.entry1 Demo.entry2 zeroFormula].
Proof.
  split; [exact buildIndex_lookup|].
  split; [intros fs e; by rewrite buildIndex_snoc, lookup_insert_eq|].
  repeat split; by vm_compute.
Qed.

(** C5. Batching does not change the result and the order is fixed: for every
    batch size of at least 1, the batched loop completes with exactly the list
    of the flat double loop, entries in input order outside and corrections in
    input order inside; the batch size 100 of the code is one of them, so this
    list is what applyCorrections stores when it runs. *)
Theorem batching_is_result_invariant (bs : nat) (fs : list Entry) (cs : list Correction) :
  (1 <= bs)%nat ->
  matchBatched bs fs cs = Some (matchFlat fs cs) /\
  matchBatched bs fs cs = matchBatched batchSize fs cs /\
  (forall st, formulas st = fs -> corrections st = cs -> fs ≠ [] -> cs ≠ [] ->
              results (applyCorrections st) = matchFlat fs cs).
Proof.
  intros Hbs. rewrite !matchBatched_flat by (done || unfold batchSize; lia).
  split; [done|]. split; [done|].
  intros st <- <- Hf Hc. by apply applyCorrections_run.
Qed.

Lemma batching_is_result_invariant_witness :
  matchBatched 1 [Demo.entry1; Demo.entry2; Demo.entry1] [mkCorrection zeroFormula] =
  Some (matchFlat [Demo.entry1; Demo.entry2; Demo.entry1] [mkCorrection zeroFormula]).
Proof. apply (batching_is_result_invariant 1). lia. Defined.

(** C4 as stated fails: with the catalog loaded and an empty corrections
    file, applyCorrections surfaces an error. *)
Lemma empty_corrections_counterexample :
  formulas Demo.noCorrections ≠ [] /\ corrections Demo.noCorrections = [] /\
  error Demo.noCorrections = None /\
  error (applyCorrections Demo.noCorrections) = Some "No formulas or corrections loaded" /\
  error (applyCorrections Demo.noCorrections) ≠ None.
Proof. repeat split; by vm_compute. Qed.

(** C4, amended. With a catalog that is not empty and an empty correction
    list, applyCorrections raises nothing but is stopped by its guard: it sets
    the error "No formulas or corrections loaded" and changes nothing else, so
    the stored results stay as they were; the matching loop itself, on zero
    corrections, completes with zero matches. *)
Theorem empty_corrections_refused (st : State) :
  formulas st ≠ [] -> corrections st = [] ->
  applyCorrections st = setError (Some "No formulas or corrections loaded") st /\
  results (applyCorrections st) = results st /\
  matchBatched batchSize (formulas st) [] = Some [].
Proof.
  intros Hf Hc. unfold applyCorrections. rewrite Hc. cbn [length Nat.eqb].
  rewrite orb_true_r. repeat split.
  rewrite matchBatched_flat by (unfold batchSize; lia). f_equal.
  unfold matchFlat. induction (formulas st) as [|e fs IH] at 2; [done|].
  cbn [flat_map omap list_omap app]. apply IH.
Qed.

Lemma empty_corrections_refused_witness :
  applyCorrections Demo.noCorrections =
    setError (Some "No formulas or corrections loaded") Demo.noCorrections /\
  results (applyCorrections Demo.noCorrections) = results Demo.noCorrections /\
  matchBatched batchSize (formulas Demo.noCorrections) [] = Some [].
Proof. apply (empty_corrections_refused Demo.noCorrections); by vm_compute. Defined.

(** ** The claims about the loader and the export *)

(** C7. Schema validation of the catalog: when no header is [formulas] after
    trimming, validation fails, the error names the missing required columns
    and [formulas] is among them (it is the only one named when [ID] is there:
    the message is then "Missing required column(s): formulas"), and the load
    is aborted: the catalog is set to the empty list and nothing else but the
    error and the loading flag is written. *)
Theorem missing_formulas_column_aborts
    (fields : list string) (data : list (gmap string string)) (st : State) :
  "formulas" ∉ (Str.trim <$> fields) ->
  let st' := handleFormulaFile (Some (PapaComplete fields data)) st in
  isValid (validateCSVStructure fields) = false /\
  error st' = Some ("Missing required column(s): " +:+ Str.join ", " (missingColumns fields)) /\
  "formulas" ∈ missingColumns fields /\
  (forall col, col ∈ missingColumns fields ->
               col ∈ requiredColumns /\ col ∉ (Str.trim <$> fields)) /\
  ("ID" ∈ (Str.trim <$> fields) -> error st' = Some "Missing required column(s): formulas") /\
  formulas st' = [] /\ isLoading st' = false /\
  corrections st' = corrections st /\ results st' = results st.
Proof.
  intros H st'. pose proof (missingColumns_cases fields H) as Hm.
  assert (isValid (validateCSVStructure fields) = false /\
          message (validateCSVStructure fields) =
            Some ("Missing required column(s): " +:+ Str.join ", " (missingColumns fields)))
    as [Hv Hmsg].
  { unfold validateCSVStructure. rewrite Hm.
    destruct (existsb _ fields); split; reflexivity. }
  assert (st' = setIsLoading false (setFormulas []
            (setError (message (validateCSVStructure fields))
               (setIsLoading true (setError None st))))) as ->.
  { subst st'. unfold handleFormulaFile. by rewrite Hv. }
  split; [exact Hv|]. split; [exact Hmsg|]. split; [|split; [|split]].
  - rewrite Hm. destruct (existsb _ fields); repeat constructor.
  - intros col Hcol. unfold missingColumns in Hcol.
    apply list_elem_of_In, List.filter_In in Hcol as [Hin Hcol].
    split; [by apply list_elem_of_In|].
    apply header_absent. by apply negb_true_iff in Hcol.
  - intros Hid. cbn [error setIsLoading setFormulas setError]. rewrite Hmsg, Hm.
    destruct (existsb _ fields) eqn:E; [done|]. by apply header_absent in E.
  - done.
Qed.

Lemma missing_formulas_column_aborts_witness :
  let st' := handleFormulaFile (Some (PapaComplete ["ID "; " formula"] Demo.rows))
                               Demo.bothLoaded in
  error st' = Some "Missing required column(s): formulas" /\ formulas st' = [].
Proof.
  destruct (missing_formulas_column_aborts ["ID "; " formula"] Demo.rows Demo.bothLoaded)
    as (_ & _ & _ & _ & Hid & Hf & _).
  - apply header_absent. reflexivity.
  - split; [|exact Hf]. apply Hid. vm_compute. constructor.
Defined.


(** C8 as stated fails: the description that the export writes has a space
    on each side of its two equal signs, so the description in the form of the
    claim occurs nowhere in the exported field. *)
Lemma export_description_counterexample :
  let rs := results (applyCorrections Demo.bothLoaded) in
  let cell := row_Matches (exportRow rs Demo.entry1) in
  matchesFor rs Demo.entry1 = [Demo.theMatch] /\
  cell = "[correction = C0H0Cl0N0O0P0S0 result = (ID 2) C1H1Cl0N0O0P0S0]" /\
  describeMatchSpec Demo.theMatch = "correction=C0H0Cl0N0O0P0S0 result=(ID 2) C1H1Cl0N0O0P0S0" /\
  Str.includes cell (describeMatchSpec Demo.theMatch) = false /\
  describeMatch <$> matchesFor rs Demo.entry1 ≠ describeMatchSpec <$> matchesFor rs Demo.entry1.
Proof. repeat split; by vm_compute. Qed.

(** C8, amended. The Matches field of the export row of an entry is built
    from the matches whose originalEntry has the id of the entry, kept in the
    order of the results: it is the empty string when there is none, and
    otherwise "[" followed by the descriptions joined by ", " and "]", each
    description being "correction = <delta> result = (ID <matchedId>)
    <matchedFormula>" with both formulas in canonical form.  When the results
    are those of the engine and the ids of the catalog are distinct, these
    matches are the ones emitted for the entry, in the order of the
    corrections. *)
Theorem export_row_descriptions (rs : list Match) (entry : Entry) :
  let ms := matchesFor rs entry in
  let row := exportRow rs entry in
  (forall m, m ∈ ms <-> m ∈ rs /\ id (originalEntry m) = id entry) /\
  ms `sublist_of` rs /\
  row_NumberOfMatches row = length ms /\
  row_Matches row =
    (if decide (ms = []) then EmptyString
     else "[" +:+ Str.join ", " (describeMatch <$> ms) +:+ "]") /\
  (forall m, describeMatch m =
     "correction = " +:+ toFormulaString (appliedCorrection m) +:+
     " result = (ID " +:+ id (matchedEntry m) +:+ ") " +:+
     toFormulaString (originalFormula (matchedEntry m))) /\
  (forall fs cs, NoDup (id <$> fs) -> entry ∈ fs ->
     matchesFor (matchFlat fs cs) entry = omap (emitMatch (buildIndex fs) entry) cs).
Proof.
  intros ms row. split; [intros m; apply matchesFor_elem|].
  split; [apply matchesFor_sublist|]. split; [done|]. split; [|split; [done|]].
  - subst row ms. unfold exportRow. cbn [row_Matches].
    destruct (matchesFor rs entry) as [|m ms]; [done|].
    cbn [length Nat.ltb Nat.leb]. by rewrite decide_False.
  - intros fs cs Hnd Hin. by apply matchesFor_flat.
Qed.

Lemma export_row_descriptions_witness :
  matchesFor (matchFlat [Demo.entry1; Demo.entry2] [mkCorrection zeroFormula]) Demo.entry1 =
  omap (emitMatch (buildIndex [Demo.entry1; Demo.entry2]) Demo.entry1) [mkCorrection zeroFormula].
Proof.
  apply (export_row_descriptions [] Demo.entry1).
  - cbn. repeat constructor; rewrite ?elem_of_cons, ?elem_of_nil; intros H;
      repeat destruct H as [H|H]; discriminate H || done.
  - constructor.
Defined.

(** C10. For an entry with no match the Matches field of the export row is
    the empty string, not "[]"; the brackets are there only when the entry has
    at least one match. *)
Theorem no_matches_empty_cell (rs : list Match) (entry : Entry) :
  (matchesFor rs entry = [] ->
     row_Matches (exportRow rs entry) = EmptyString /\
     row_Matches (exportRow rs entry) ≠ "[]" /\
     row_NumberOfMatches (exportRow rs entry) = O) /\
  (matchesFor rs entry ≠ [] ->
     exists body, row_Matches (exportRow rs entry) = "[" +:+ body +:+ "]") /\
  (row_Matches (exportRow rs entry) = EmptyString <-> matchesFor rs entry = []).
Proof.
  unfold exportRow. cbn [row_Matches row_NumberOfMatches].
  destruct (matchesFor rs entry) as [|m ms]; cbn [length Nat.ltb Nat.leb].
  - repeat split; done.
  - split; [done|]. split; [|split; [|done]].
    + intros _. by eexists.
    + rewrite str_app_cons. discriminate.
Qed.

Lemma no_matches_empty_cell_witness :
  row_Matches (exportRow [Demo.theMatch] Demo.entry2) = EmptyString /\
  exists body, row_Matches (exportRow [Demo.theMatch] Demo.entry1) = "[" +:+ body +:+ "]".
Proof.
  split.
  - apply (no_matches_empty_cell [Demo.theMatch] Demo.entry2). reflexivity.
  - apply (no_matches_empty_cell [Demo.theMatch] Demo.entry1). discriminate.
Defined.

(** * Further properties of the code *)

(** ** The parser: tokens in context *)

(** X1. The last occurrence of a symbol gives its count: when a tracked
    symbol with the digits of a safe integer ends the tokens of a text, the
    count of that element is that integer, whatever the text before it says
    about the element (counts are not summed). *)
Theorem last_occurrence_wins (pre sym : string) (z : Z) (t : string) :
  isSafeInteger z ->
  sym ∈ trackedSymbols -> hasUpper t = false -> noDigitHead t ->
  countOf (parseFormulaString (pre +:+ sym +:+ numberToString z +:+ t)) sym = z.
Proof.
  intros Hz Hsym Ht Hd. pose proof (trackedSymbols_isSymbol sym Hsym) as Hs.
  destruct (scanFrom_total pre ∅) as [atoms Hpre].
  assert (scanFrom (pre +:+ sym +:+ numberToString z +:+ t) ∅ = Some (<[sym := z]> atoms)) as H.
  { rewrite (scanFrom_before_symbol pre sym _ ∅ atoms Hs Hpre), scanFrom_token by done.
    by apply scanFrom_done, patternExec_none. }
  rewrite (parseFormulaString_scanFrom _ _ H), countOf_formulaOfAtoms by done.
  rewrite atomCount_insert. by rewrite decide_True.
Qed.

Lemma last_occurrence_wins_witness :
  countOf (parseFormulaString "C2H5C-7 ") "C" = -7.
Proof.
  apply (last_occurrence_wins "C2H5" "C" (-7) " "); [| |reflexivity|reflexivity].
  - unfold isSafeInteger, maxSafeInteger. cbn. lia.
  - unfold trackedSymbols. constructor.
Defined.

(** X2. Symbols that are not tracked are ignored: taking the token of such a
    symbol (with its count) out of a text, at a place where the next token or
    the end of the text follows, does not change the parsed formula. *)
Theorem untracked_symbols_ignored (pre sym : string) (z : Z) (rest : string) :
  isSymbol sym -> sym ∉ trackedSymbols -> tokenBoundary rest ->
  parseFormulaString (pre +:+ sym +:+ numberToString z +:+ rest) =
  parseFormulaString (pre +:+ rest).
Proof.
  intros Hs Hsym Hb. destruct (scanFrom_total pre ∅) as [atoms Hpre].
  apply (inj Some). rewrite !parseFormulaString_fmap.
  rewrite (scanFrom_before_symbol pre sym _ ∅ atoms Hs Hpre).
  destruct (scanFrom_printed z) as [v Hv].
  rewrite Hv by (done || by apply tokenBoundary_noDigitHead).
  rewrite (scanFrom_before_boundary pre rest ∅ atoms Hb Hpre).
  apply execLoop_formula, formulaOfAtoms_insert_untracked, Hsym.
Qed.

Lemma untracked_symbols_ignored_witness :
  parseFormulaString "C6Na2H12" = parseFormulaString "C6H12".
Proof.
  apply (untracked_symbols_ignored "C6" "Na" 2 "H12"); [| |reflexivity].
  - exists "N"%char. split; [reflexivity|]. right. exists "a"%char. by split.
  - unfold trackedSymbols. rewrite !not_elem_of_cons.
    repeat split; (discriminate || apply not_elem_of_nil).
Defined.

(** X3. The order of the elements in a text does not matter: two tokens of
    different symbols, one after the other, can be exchanged without changing
    the parsed formula. *)
Theorem element_order_irrelevant (pre sym1 sym2 : string) (z1 z2 : Z) (rest : string) :
  isSymbol sym1 -> isSymbol sym2 -> sym1 ≠ sym2 -> noDigitHead rest ->
  parseFormulaString (pre +:+ sym1 +:+ numberToString z1 +:+ sym2 +:+ numberToString z2 +:+ rest) =
  parseFormulaString (pre +:+ sym2 +:+ numberToString z2 +:+ sym1 +:+ numberToString z1 +:+ rest).
Proof.
  intros Hs1 Hs2 Hne Hrest. destruct (scanFrom_total pre ∅) as [atoms Hpre].
  assert (forall sym X, isSymbol sym -> noDigitHead (sym +:+ X)) as Hhead.
  { intros sym X (u & Hu & [-> | (l & Hl & ->)]); by apply isUpper_not_digit. }
  apply (inj Some). rewrite !parseFormulaString_fmap.
  rewrite (scanFrom_before_symbol pre sym1 _ ∅ atoms Hs1 Hpre).
  rewrite (scanFrom_before_symbol pre sym2 _ ∅ atoms Hs2 Hpre).
  destruct (scanFrom_printed z1) as [v1 Hv1]. destruct (scanFrom_printed z2) as [v2 Hv2].
  rewrite (Hv1 sym1), (Hv2 sym2), (Hv2 sym2), (Hv1 sym1) by auto.
  by rewrite insert_insert_ne.
Qed.

Lemma element_order_irrelevant_witness :
  parseFormulaString "H8C3Cl1" = parseFormulaString "C3H8Cl1".
Proof.
  apply (element_order_irrelevant "" "H" "C" 8 3 "Cl1"); try done.
  - exists "H"%char. split; [reflexivity|]. by left.
  - exists "C"%char. split; [reflexivity|]. by left.
Defined.

(** X4. A count is read only when it follows its symbol at once: when any
    character that is neither a digit, a minus sign nor a letter stands between
    a tracked symbol and the digits (a space, a plus sign, a brace as in
    "C{10}"), the count of that element is 0. *)
Theorem separator_zeroes_count (pre sym : string) (x : ascii) (t : string) :
  sym ∈ trackedSymbols ->
  isLower x = false -> isUpper x = false -> isDigit x = false -> Ascii.eqb x "-" = false ->
  hasUpper t = false ->
  countOf (parseFormulaString (pre +:+ sym +:+ String x t)) sym = 0.
Proof.
  intros Hsym Hx1 Hx2 Hx3 Hx4 Ht. pose proof (trackedSymbols_isSymbol sym Hsym) as Hs.
  destruct (scanFrom_total pre ∅) as [atoms Hpre].
  assert (scanFrom (pre +:+ sym +:+ String x t) ∅ = Some (<[sym := 0]> atoms)) as H.
  { rewrite (scanFrom_before_symbol pre sym _ ∅ atoms Hs Hpre).
    rewrite (scanFrom_step _ _ _ (patternExec_separator sym x t Hs Hx1 Hx3 Hx4)).
    cbn [group1 group2 afterMatch]. apply scanFrom_done, patternExec_none.
    cbn [hasUpper]. by rewrite Hx2, Ht. }
  rewrite (parseFormulaString_scanFrom _ _ H), countOf_formulaOfAtoms by done.
  rewrite atomCount_insert. by rewrite decide_True.
Qed.

Lemma separator_zeroes_count_witness :
  countOf (parseFormulaString "C5C{10}") "C" = 0.
Proof.
  apply (separator_zeroes_count "C5" "C" "{" "10}"); try reflexivity.
  unfold trackedSymbols. constructor.
Defined.

(** ** The loaders *)

Section MoreLoaderFacts.

Lemma header_present (fields : list string) (col : string) :
  existsb (fun header => String.eqb (Str.trim header) col) fields = true <->
  col ∈ (Str.trim <$> fields).
Proof.
  pose proof (header_absent fields col) as H.
  destruct (existsb _ fields).
  - split; [|done]. intros _. destruct (decide (col ∈ Str.trim <$> fields)); [done|].
    by apply H in n.
  - split; [done|]. intros Hin. by apply H in Hin.
Qed.

Lemma isValid_true (fields : list string) :
  isValid (validateCSVStructure fields) = true ->
  missingColumns fields = [].
Proof.
  unfold validateCSVStructure. by destruct (missingColumns fields).
Qed.

Lemma truthy_nonempty v : truthy v = true -> exists c t, v = Some (String c t).
Proof. destruct v as [[|c t]|]; [done| |done]. by exists c, t. Qed.

Lemma rowToEntry_id row : usableRow row = true -> id (rowToEntry row) ≠ EmptyString.
Proof.
  unfold usableRow. intros H. apply andb_true_iff in H as [H _].
  apply truthy_nonempty in H as (c & t & H). unfold rowToEntry. cbn [id]. by rewrite H.
Qed.

Lemma splitAux_line sep l :
  containsChar sep l = false ->
  forall cur, Str.splitAux sep l cur = [String.rev_app cur l].
Proof.
  induction l as [|c t IH]; cbn [containsChar Str.splitAux]; [done|].
  intros H cur. apply orb_false_iff in H as [-> H]. by rewrite IH.
Qed.

Lemma splitAux_app sep a b :
  forall cur,
    Str.splitAux sep (a +:+ String sep b) cur =
    Str.splitAux sep a cur ++ Str.splitAux sep b EmptyString.
Proof.
  induction a as [|c t IH]; intros cur; rewrite ?str_app_nil, ?str_app_cons;
    cbn [Str.splitAux].
  - by rewrite Ascii.eqb_refl.
  - destruct (Ascii.eqb c sep); by rewrite IH.
Qed.

Lemma load_usable_rows
    (fields : list string) (data : list (gmap string string)) (st : State) :
  isValid (validateCSVStructure fields) = true ->
  (exists row, row ∈ data /\ usableRow row = true) ->
  let st' := handleFormulaFile (Some (PapaComplete fields data)) st in
  formulas st' = rowToEntry <$> List.filter usableRow data /\
  formulas st' ≠ [] /\
  (length (formulas st') <= length data)%nat /\
  (forall e, e ∈ formulas st' -> id e ≠ EmptyString) /\
  error st' = None /\ isLoading st' = false.
Proof.
  intros Hv (row & Hin & Hrow) st'.
  assert (List.filter usableRow data ≠ []) as Hne.
  { intros Hnil. assert (row ∈ List.filter usableRow data) as H.
    { apply list_elem_of_In, List.filter_In. by rewrite <- list_elem_of_In. }
    rewrite Hnil in H. by apply elem_of_nil in H. }
  assert (formulas st' = rowToEntry <$> List.filter usableRow data /\
          error st' = None /\ isLoading st' = false) as (Hf & He & Hl).
  { subst st'. unfold handleFormulaFile. rewrite Hv. cbn [negb].
    change (fun row0 : gmap string string => truthy (row0 !! "ID") && truthy (row0 !! "formulas"))
      with usableRow.
    destruct (List.filter usableRow data) as [|r rs] eqn:E; [done|]. by cbn. }
  rewrite Hf. repeat split; try done.
  - intros H. by apply fmap_nil_inv in H.
  - rewrite length_fmap. apply List.filter_length_le.
  - intros e He'. apply list_elem_of_fmap in He' as (r & -> & Hr).
    apply list_elem_of_In, List.filter_In in Hr as [_ Hr]. by apply rowToEntry_id.
Qed.

Lemma load_without_usable_row
    (fields : list string) (data : list (gmap string string)) (st : State) :
  isValid (validateCSVStructure fields) = true ->
  (forall row, row ∈ data -> usableRow row = false) ->
  let st' := handleFormulaFile (Some (PapaComplete fields data)) st in
  error st' = Some "No valid formulas found in the CSV file" /\
  formulas st' = formulas st /\ isLoading st' = false.
Proof.
  intros Hv Hrows st'.
  assert (List.filter usableRow data = []) as Hnil.
  { induction data as [|r rs IH]; [done|]. cbn [List.filter].
    rewrite (Hrows r) by constructor. apply IH. intros row Hin. apply Hrows. by constructor. }
  subst st'. unfold handleFormulaFile. rewrite Hv. cbn [negb].
  change (fun row0 : gmap string string => truthy (row0 !! "ID") && truthy (row0 !! "formulas"))
    with usableRow.
  by rewrite Hnil.
Qed.

End MoreLoaderFacts.

(** X5. The header check accepts a file exactly when, after trimming, one
    header is [ID] and one is [formulas], with these very letters; it gives a
    message exactly when it rejects. *)
Theorem validation_accepts_iff (headers : list string) :
  (isValid (validateCSVStructure headers) = true <->
   "ID" ∈ (Str.trim <$> headers) /\ "formulas" ∈ (Str.trim <$> headers)) /\
  (message (validateCSVStructure headers) = None <->
   isValid (validateCSVStructure headers) = true).
Proof.
  rewrite <- !header_present. unfold validateCSVStructure, missingColumns, requiredColumns.
  cbn [List.filter].
  destruct (existsb (fun header => String.eqb (Str.trim header) "ID") headers);
    destruct (existsb (fun header => String.eqb (Str.trim header) "formulas") headers);
    cbn; repeat split; try done; by intros [? ?].
Qed.

(** X6. A load that succeeds: with accepted headers and at least one row
    whose [ID] and [formulas] are both there and not empty, the catalog becomes
    the entries of exactly these rows, in the order of the file; it is not
    empty, no longer than the file, every id in it is a non-empty string, no
    error is left and the loading flag is off. *)
Theorem catalog_load_succeeds
    (fields : list string) (data : list (gmap string string)) (st : State) :
  isValid (validateCSVStructure fields) = true ->
  (exists row, row ∈ data /\ usableRow row = true) ->
  let st' := handleFormulaFile (Some (PapaComplete fields data)) st in
  formulas st' = rowToEntry <$> List.filter usableRow data /\
  formulas st' ≠ [] /\
  (length (formulas st') <= length data)%nat /\
  (forall e, e ∈ formulas st' -> id e ≠ EmptyString) /\
  error st' = None /\ isLoading st' = false.
Proof. apply load_usable_rows. Qed.

Lemma catalog_load_succeeds_witness :
  formulas (handleFormulaFile (Some (PapaComplete ["ID"; "formulas "; "mz"] Demo.rows))
                              Demo.noCorrections) =
  rowToEntry <$> List.filter usableRow Demo.rows.
Proof.
  apply (catalog_load_succeeds ["ID"; "formulas "; "mz"] Demo.rows Demo.noCorrections).
  - reflexivity.
  - eexists. split; [constructor|]. reflexivity.
Defined.

(** X7. A file with accepted headers but no usable row is refused with the
    error "No valid formulas found in the CSV file", and, unlike a file with
    wrong headers, it leaves the catalog that was loaded before in place. *)
Theorem no_usable_row_keeps_catalog
    (fields : list string) (data : list (gmap string string)) (st : State) :
  isValid (validateCSVStructure fields) = true ->
  (forall row, row ∈ data -> usableRow row = false) ->
  let st' := handleFormulaFile (Some (PapaComplete fields data)) st in
  error st' = Some "No valid formulas found in the CSV file" /\
  formulas st' = formulas st /\ isLoading st' = false.
Proof. apply load_without_usable_row. Qed.

Lemma no_usable_row_keeps_catalog_witness :
  let st' := handleFormulaFile
               (Some (PapaComplete ["ID"; "formulas"] [ {[ "ID" := "7"; "formulas" := "" ]} ]))
               Demo.bothLoaded in
  error st' = Some "No valid formulas found in the CSV file" /\
  formulas st' = formulas Demo.bothLoaded /\ isLoading st' = false.
Proof.
  apply (no_usable_row_keeps_catalog ["ID"; "formulas"]
           [ {[ "ID" := "7"; "formulas" := "" ]} ] Demo.bothLoaded).
  - reflexivity.
  - intros row Hin. apply list_elem_of_singleton in Hin. subst row. reflexivity.
Defined.

(** X8. Headers are trimmed for the check but not for reading the rows: when
    a required header is in the file only with blanks around it, the file
    passes the header check, yet no row (keyed by the headers as they stand)
    is usable, and the load ends with "No valid formulas found in the CSV
    file" and the former catalog. *)
Theorem untrimmed_header_loads_nothing
    (fields : list string) (data : list (gmap string string)) (st : State) :
  isValid (validateCSVStructure fields) = true ->
  "ID" ∉ fields \/ "formulas" ∉ fields ->
  (forall row k, row ∈ data -> is_Some (row !! k) -> k ∈ fields) ->
  let st' := handleFormulaFile (Some (PapaComplete fields data)) st in
  error st' = Some "No valid formulas found in the CSV file" /\
  formulas st' = formulas st.
Proof.
  intros Hv Hraw Hkeys st'.
  destruct (load_without_usable_row fields data st Hv) as (He & Hf & _); [|done].
  intros row Hin. unfold usableRow. apply andb_false_iff.
  destruct Hraw as [Hraw | Hraw]; [left | right];
    (destruct (row !! _) as [v|] eqn:E; [|done]);
    exfalso; apply Hraw, (Hkeys row _ Hin); by rewrite E.
Qed.

Lemma untrimmed_header_loads_nothing_witness :
  let st' := handleFormulaFile
               (Some (PapaComplete [" ID"; "formulas"]
                        [ {[ " ID" := "1"; "formulas" := "C1H1" ]} ]))
               Demo.bothLoaded in
  error st' = Some "No valid formulas found in the CSV file" /\
  formulas st' = formulas Demo.bothLoaded.
Proof.
  apply (untrimmed_header_loads_nothing [" ID"; "formulas"]
           [ {[ " ID" := "1"; "formulas" := "C1H1" ]} ] Demo.bothLoaded).
  - reflexivity.
  - left. rewrite !not_elem_of_cons. repeat split; (discriminate || apply not_elem_of_nil).
  - intros row k Hin Hk. apply list_elem_of_singleton in Hin. subst row.
    destruct (decide (k = " ID")) as [->|H1]; [constructor|].
    destruct (decide (k = "formulas")) as [->|H2]; [do 2 constructor|].
    rewrite lookup_insert_ne in Hk by done.
    rewrite lookup_singleton_ne in Hk by done. by destruct Hk.
Defined.

Section CorrectionTextFacts.

Lemma split_line l : containsChar "010" l = false -> Str.split "010" l = [l].
Proof. intros H. unfold Str.split. by rewrite splitAux_line. Qed.

Lemma split_app a b :
  Str.split "010" (a +:+ String "010" b) = Str.split "010" a ++ Str.split "010" b.
Proof. apply splitAux_app. Qed.

Lemma hasUpper_trimStart l : hasUpper l = false -> hasUpper (Str.trimStart l) = false.
Proof.
  induction l as [|c t IH]; cbn [Str.trimStart]; [done|].
  intros H. destruct (isSpace c); [|done].
  cbn [hasUpper] in H. apply orb_false_iff in H as [_ H]. by apply IH.
Qed.

Lemma hasUpper_trimEnd l : hasUpper l = false -> hasUpper (Str.trimEnd l) = false.
Proof.
  induction l as [|c t IH]; cbn [Str.trimEnd hasUpper]; [done|].
  intros H. apply orb_false_iff in H as [Hc Ht]. specialize (IH Ht).
  destruct (Str.trimEnd t) as [|d t'].
  - destruct (isSpace c); [done|]. cbn [hasUpper]. by rewrite Hc.
  - cbn [hasUpper] in *. by rewrite Hc, IH.
Qed.

Lemma hasUpper_trim l : hasUpper l = false -> hasUpper (Str.trim l) = false.
Proof. intros H. by apply hasUpper_trimEnd, hasUpper_trimStart. Qed.

Lemma loaders_keep (st : State) :
  (forall file, results (handleFormulaFile file st) = results st /\
                corrections (handleFormulaFile file st) = corrections st) /\
  (forall file, results (handleCorrectionFile file st) = results st /\
                formulas (handleCorrectionFile file st) = formulas st).
Proof.
  split.
  - intros [[fields data | msg] |]; unfold handleFormulaFile; [|done|done].
    destruct (negb (isValid (validateCSVStructure fields))); [done|].
    by destruct (length _ =? 0)%nat.
  - by intros [[text | msg] |].
Qed.

End CorrectionTextFacts.

(** X9. Loading a file never touches what the other handlers own: the
    catalog handler leaves the corrections and the stored results as they are,
    and the corrections handler leaves the catalog and the stored results as
    they are; results of an earlier run stay until the next run or a reset. *)
Theorem loaders_keep_results (st : State) :
  (forall file, results (handleFormulaFile file st) = results st /\
                corrections (handleFormulaFile file st) = corrections st) /\
  (forall file, results (handleCorrectionFile file st) = results st /\
                formulas (handleCorrectionFile file st) = formulas st).
Proof. apply loaders_keep. Qed.

(** X10. The corrections text is read line by line: the corrections of two
    texts joined by a line feed are the corrections of the first followed by
    those of the second, so a line feed at the end, or an empty text, adds no
    correction. *)
Theorem corrections_text_composes (a b : string) :
  parseCorrections (a +:+ String "010" b) = parseCorrections a ++ parseCorrections b /\
  parseCorrections (a +:+ String "010" EmptyString) = parseCorrections a /\
  parseCorrections EmptyString = [].
Proof.
  assert (forall x y, parseCorrections (x +:+ String "010" y) =
                      parseCorrections x ++ parseCorrections y) as H.
  { intros x y. unfold parseCorrections.
    by rewrite split_app, map_app, List.filter_app, map_app. }
  split; [apply H|]. split; [|done].
  rewrite H. change (parseCorrections EmptyString) with (@nil Correction).
  apply app_nil_r.
Qed.

(** X11. One line gives at most one correction: a line of white space gives
    none, any other line gives exactly one, the formula parsed from the
    trimmed line; a line in which nothing can be read (no upper-case letter)
    still gives a correction, the all-zero one. *)
Theorem correction_line (l : string) :
  containsChar "010" l = false ->
  (Str.trim l = EmptyString -> parseCorrections l = []) /\
  (Str.trim l ≠ EmptyString ->
     parseCorrections l = [mkCorrection (parseFormulaString (Str.trim l))]) /\
  (Str.trim l ≠ EmptyString -> hasUpper l = false ->
     parseCorrections l = [mkCorrection zeroFormula]).
Proof.
  intros Hl.
  assert (Str.trim l ≠ EmptyString ->
          parseCorrections l = [mkCorrection (parseFormulaString (Str.trim l))]) as H.
  { intros Hne. unfold parseCorrections. rewrite split_line by done. cbn [map List.filter].
    by destruct (Str.trim l). }
  split; [|split; [exact H|]].
  - intros He. unfold parseCorrections. rewrite split_line by done. cbn [map List.filter].
    by rewrite He.
  - intros Hne Hup. rewrite H by done. do 2 f_equal.
    apply hasUpper_trim, patternExec_none in Hup.
    by rewrite (parseFormulaString_scanFrom _ _ (scanFrom_done _ ∅ Hup)).
Qed.

Lemma correction_line_witness :
  parseCorrections "  n/a " = [mkCorrection zeroFormula] /\
  parseCorrections "   " = [].
Proof.
  split.
  - apply (correction_line "  n/a "); [reflexivity | discriminate | reflexivity].
  - apply (correction_line "   "); reflexivity.
Defined.

(** ** What holds in every state the user can reach *)

Section ReachableFacts.

Lemma handleFormulaFile_ids file st e :
  e ∈ formulas (handleFormulaFile file st) -> e ∈ formulas st \/ id e ≠ EmptyString.
Proof.
  destruct file as [[fields data | msg] |]; unfold handleFormulaFile.
  - destruct (negb (isValid (validateCSVStructure fields))); [by intros ?%elem_of_nil|].
    destruct (length _ =? 0)%nat; [by left|].
    cbn [formulas setIsLoading setFormulas]. intros He. right.
    apply list_elem_of_In, in_map_iff in He as (r & <- & Hr).
    apply List.filter_In in Hr as [_ Hr]. by apply rowToEntry_id.
  - by intros ?%elem_of_nil.
  - by left.
Qed.

Lemma run_snoc actions a : run (actions ++ [a]) = act a (run actions).
Proof. unfold run. by rewrite fold_left_app. Qed.

Lemma run_invariant (actions : list Action) :
  let st := run actions in
  (forall e, e ∈ formulas st -> id e ≠ EmptyString) /\
  (forall m, m ∈ results st ->
     add (originalFormula (originalEntry m)) (appliedCorrection m) =
       originalFormula (matchedEntry m) /\
     id (originalEntry m) ≠ id (matchedEntry m) /\
     id (originalEntry m) ≠ EmptyString /\ id (matchedEntry m) ≠ EmptyString).
Proof.
  induction actions as [|a actions IH] using rev_ind; cbn zeta.
  - split; intros x Hx; by apply elem_of_nil in Hx.
  - rewrite run_snoc. destruct IH as [IHf IHr]. destruct a as [file | file | |]; cbn [act].
    + destruct (loaders_keep (run actions)) as [H _].
      destruct (H file) as [-> _]. split; [|exact IHr].
      intros e He. apply handleFormulaFile_ids in He as [He | He]; auto.
    + destruct (loaders_keep (run actions)) as [_ H].
      destruct (H file) as [-> ->]. by split.
    + destruct (formulas (run actions)) as [|e0 fs0] eqn:Ef.
      { unfold applyCorrections. rewrite Ef. cbn. rewrite Ef. by split. }
      destruct (corrections (run actions)) as [|c0 cs0] eqn:Ec.
      { unfold applyCorrections. rewrite Ef, Ec. cbn. rewrite Ef. by split. }
      assert (formulas (applyCorrections (run actions)) = formulas (run actions)) as Hfs.
      { unfold applyCorrections. rewrite Ef, Ec. cbn [length Nat.eqb orb].
        by destruct (matchBatched _ _ _). }
      destruct (applyCorrections_run (run actions)) as [Hres _];
        [by rewrite Ef | by rewrite Ec |].
      rewrite Hfs, Hres, Ef. split; [exact IHf|].
      intros m Hm. apply matchFlat_elem in Hm as (e & c & He & Hc & Hm).
      apply emitMatch_sound in Hm as (Ho & Ha & Hin & Hkey & Hid).
      rewrite Ho, Ha. split; [by apply toFormulaString_inj|].
      split; [intros H; by apply Hid|]. split; by apply IHf.
    + split; intros x Hx; by apply elem_of_nil in Hx.
Qed.

End ReachableFacts.

(** X12. An invariant of the component: after any sequence of file loads,
    Apply Corrections and Reset from the initial state, every entry of the
    catalog has a non-empty id, and every stored match, even one left from an
    earlier run, joins two entries with non-empty and different ids such that
    the formula of originalEntry plus appliedCorrection is the formula of
    matchedEntry. *)
Theorem reachable_state_invariant (actions : list Action) :
  let st := run actions in
  (forall e, e ∈ formulas st -> id e ≠ EmptyString) /\
  (forall m, m ∈ results st ->
     add (originalFormula (originalEntry m)) (appliedCorrection m) =
       originalFormula (matchedEntry m) /\
     id (originalEntry m) ≠ id (matchedEntry m) /\
     id (originalEntry m) ≠ EmptyString /\ id (matchedEntry m) ≠ EmptyString).
Proof. apply run_invariant. Qed.

Lemma reachable_state_invariant_witness :
  id Demo.entry1 ≠ EmptyString /\
  id (originalEntry Demo.theMatch) ≠ id (matchedEntry Demo.theMatch).
Proof.
  destruct (reachable_state_invariant
              [LoadFormulas (Some (PapaComplete ["ID"; "formulas"] Demo.rows));
               LoadCorrections (Some (TextRead "C0H0")); Apply]) as [Hf Hr].
  split.
  - apply Hf. vm_compute. constructor.
  - apply Hr. vm_compute. constructor.
Defined.

(** ** The matching engine: size, completeness, repeated runs *)

Section MoreEngineFacts.

Lemma omap_length_le {A B} (f : A -> option B) (l : list A) :
  (length (omap f l) <= length l)%nat.
Proof.
  induction l as [|x l IH]; cbn [omap list_omap length]; [lia|].
  destruct (f x); cbn [length]; lia.
Qed.

Lemma matchFlat_length index cs es :
  (length (flat_map (fun e => omap (emitMatch index e) cs) es) <= length es * length cs)%nat.
Proof.
  induction es as [|e es IH]; cbn [flat_map length]; [lia|].
  rewrite length_app. pose proof (omap_length_le (emitMatch index e) cs). lia.
Qed.

Lemma flat_map_omap_app index cs1 cs2 es :
  flat_map (fun e => omap (emitMatch index e) (cs1 ++ cs2)) es ≡ₚ
  flat_map (fun e => omap (emitMatch index e) cs1) es ++
  flat_map (fun e => omap (emitMatch index e) cs2) es.
Proof.
  induction es as [|e es IH]; cbn [flat_map]; [done|].
  rewrite IH, omap_app, <- !app_assoc. apply Permutation_app_head.
  rewrite !app_assoc. apply Permutation_app_tail, Permutation_app_comm.
Qed.

Lemma index_lookup_formula (fs : list Entry) (F : AtomicFormula) :
  buildIndex fs !! toFormulaString F =
  last (List.filter (fun t => bool_decide (originalFormula t = F)) fs).
Proof.
  rewrite buildIndex_lookup. f_equal. apply List.filter_ext. intros t.
  unfold entryKey. destruct (String.eqb _ _) eqn:E.
  - apply String.eqb_eq, toFormulaString_inj in E. by rewrite bool_decide_eq_true_2.
  - apply String.eqb_neq in E. rewrite bool_decide_eq_false_2; [done|].
    intros Heq. apply E. by rewrite Heq.
Qed.

Lemma add_zero_r f : add f zeroFormula = f.
Proof. destruct f. unfold add. cbn. f_equal; lia. Qed.

Lemma NoDup_fmap_eq {A B} (f : A -> B) (l : list A) x y :
  NoDup (f <$> l) -> x ∈ l -> y ∈ l -> f x = f y -> x = y.
Proof.
  induction l as [|a l IH]; [by intros _ ?%elem_of_nil|].
  cbn [fmap list_fmap]. rewrite NoDup_cons, !elem_of_cons.
  intros [Ha Hnd] [-> | Hx] [-> | Hy] Heq; try done.
  - exfalso. apply Ha. rewrite Heq. by apply list_elem_of_fmap_2.
  - exfalso. apply Ha. rewrite <- Heq. by apply list_elem_of_fmap_2.
  - by apply IH.
Qed.

Lemma matchBatched_code fs cs : matchBatched batchSize fs cs = Some (matchFlat fs cs).
Proof. apply matchBatched_flat. unfold batchSize. lia. Qed.

End MoreEngineFacts.

(** X13. The number of matches of a run is at most the number of entries
    times the number of corrections. *)
Theorem match_count_bounded (fs : list Entry) (cs : list Correction) :
  exists rs, matchBatched batchSize fs cs = Some rs /\
             (length rs <= length fs * length cs)%nat.
Proof.
  exists (matchFlat fs cs). split; [apply matchBatched_code|]. apply matchFlat_length.
Qed.

(** X14. The engine treats the corrections one by one and removes no
    duplicate: the matches for two lists of corrections put together are,
    up to their order, the matches for the first list and the matches for the
    second, so a correction listed twice gives each of its matches twice. *)
Theorem matches_additive_in_corrections (fs : list Entry) (cs1 cs2 : list Correction) :
  exists rs rs1 rs2,
    matchBatched batchSize fs (cs1 ++ cs2) = Some rs /\
    matchBatched batchSize fs cs1 = Some rs1 /\
    matchBatched batchSize fs cs2 = Some rs2 /\
    rs ≡ₚ rs1 ++ rs2 /\
    length rs = (length rs1 + length rs2)%nat.
Proof.
  exists (matchFlat fs (cs1 ++ cs2)), (matchFlat fs cs1), (matchFlat fs cs2).
  rewrite !matchBatched_code. repeat split.
  - apply flat_map_omap_app.
  - unfold matchFlat. by rewrite flat_map_omap_app, length_app.
Qed.

(** X15. The engine finds exactly the coincidences it can reach: a record
    is in the result if and only if its originalEntry is in the catalog, its
    appliedCorrection is one of the corrections, its matchedEntry is the last
    entry of the catalog whose formula is the formula of originalEntry plus
    the correction, and the two ids differ. *)
Theorem engine_sound_and_complete (fs : list Entry) (cs : list Correction) :
  exists rs, matchBatched batchSize fs cs = Some rs /\
    forall m, m ∈ rs <->
      originalEntry m ∈ fs /\
      (exists c, c ∈ cs /\ appliedCorrection m = formula c) /\
      last (List.filter
              (fun t => bool_decide (originalFormula t =
                                     add (originalFormula (originalEntry m))
                                         (appliedCorrection m))) fs)
        = Some (matchedEntry m) /\
      id (matchedEntry m) ≠ id (originalEntry m).
Proof.
  exists (matchFlat fs cs). split; [apply matchBatched_code|].
  intros m. rewrite matchFlat_elem. split.
  - intros (e & c & He & Hc & Hm). unfold emitMatch in Hm.
    rewrite index_lookup_formula in Hm.
    destruct (last _) as [t|] eqn:El; [|done].
    case_bool_decide as Hid; [|done]. injection Hm as <-. cbn.
    split; [done|]. split; [by exists c|]. by split.
  - intros (He & (c & Hc & Ha) & Hl & Hid). exists (originalEntry m), c.
    split; [done|]. split; [done|]. unfold emitMatch.
    rewrite index_lookup_formula, <- Ha, Hl. rewrite bool_decide_eq_true_2 by done.
    f_equal. destruct m. cbn in *. by rewrite Ha.
Qed.

(** X16. In a catalog whose entries all have different formulas, no match is
    due to an all-zero correction, and every match joins two entries with
    different formulas. *)
Theorem distinct_formulas_no_zero_match (fs : list Entry) (cs : list Correction) :
  NoDup (originalFormula <$> fs) ->
  exists rs, matchBatched batchSize fs cs = Some rs /\
    forall m, m ∈ rs ->
      appliedCorrection m ≠ zeroFormula /\
      originalFormula (originalEntry m) ≠ originalFormula (matchedEntry m).
Proof.
  intros Hnd. exists (matchFlat fs cs). split; [apply matchBatched_code|].
  intros m Hm. apply matchFlat_elem in Hm as (e & c & He & Hc & Hm).
  apply emitMatch_sound in Hm as (Ho & Ha & Hin & Hkey & Hid). rewrite Ho, Ha.
  assert (originalFormula e ≠ originalFormula (matchedEntry m)) as Hne.
  { intros Heq. apply Hid. f_equal. symmetry.
    by apply (NoDup_fmap_eq originalFormula fs). }
  split; [|done]. intros Hz. apply Hne.
  rewrite Hz, add_zero_r in Hkey. by apply toFormulaString_inj.
Qed.

Lemma distinct_formulas_no_zero_match_witness :
  exists rs,
    matchBatched batchSize [Demo.entry1; mkEntry "3" (mkFormula 1 2 0 0 0 0 0)]
                 [mkCorrection zeroFormula; mkCorrection (mkFormula 0 1 0 0 0 0 0)] = Some rs /\
    forall m, m ∈ rs ->
      appliedCorrection m ≠ zeroFormula /\
      originalFormula (originalEntry m) ≠ originalFormula (matchedEntry m).
Proof.
  apply (distinct_formulas_no_zero_match
           [Demo.entry1; mkEntry "3" (mkFormula 1 2 0 0 0 0 0)]).
  cbn. repeat constructor; rewrite ?elem_of_cons, ?elem_of_nil; intros H;
    repeat destruct H as [H|H]; discriminate H || done.
Defined.

(** X17. Pressing Apply Corrections twice is the same as pressing it once:
    the second run sees the same catalog and corrections and stores the same
    results, error and flags. *)
Theorem applyCorrections_idempotent (st : State) :
  applyCorrections (applyCorrections st) = applyCorrections st.
Proof.
  unfold applyCorrections at 2.
  destruct ((length (formulas st) =? 0)%nat || (length (corrections st) =? 0)%nat) eqn:G.
  - unfold applyCorrections. cbn [formulas corrections setError]. by rewrite G.
  - cbn [formulas corrections setIsProcessing setProcessProgress setIsLoading].
    rewrite matchBatched_code.
    unfold applyCorrections.
    cbn [formulas corrections setIsProcessing setProcessProgress setIsLoading setResults].
    rewrite G, matchBatched_code. reflexivity.
Qed.

(** X18. The guard of applyCorrections cannot fire through the button: in
    every state in which the Apply Corrections button is enabled, the run takes
    place, stores the matches of the flat double loop, leaves the error as it
    was, ends with the loading and processing flags off and the progress at
    the size of the catalog, and the button is enabled again. *)
Theorem enabled_apply_runs (st : State) :
  applyDisabled st = false ->
  let st' := applyCorrections st in
  results st' = matchFlat (formulas st) (corrections st) /\
  error st' = error st /\
  isLoading st' = false /\ isProcessing st' = false /\
  processProgress st' = (length (formulas st), length (formulas st)) /\
  formulas st' = formulas st /\ corrections st' = corrections st /\
  applyDisabled st' = false.
Proof.
  unfold applyDisabled. intros H. apply orb_false_iff in H as [G _].
  cbn zeta. unfold applyDisabled, applyCorrections. rewrite G.
  cbn [formulas corrections setIsProcessing setProcessProgress setIsLoading].
  rewrite matchBatched_code. cbn. by rewrite G.
Qed.

Lemma enabled_apply_runs_witness :
  results (applyCorrections Demo.bothLoaded) =
    matchFlat (formulas Demo.bothLoaded) (corrections Demo.bothLoaded) /\
  error (applyCorrections Demo.bothLoaded) = error Demo.bothLoaded.
Proof.
  destruct (enabled_apply_runs Demo.bothLoaded) as (H1 & H2 & _); [reflexivity|].
  by split.
Defined.

(** ** The table: counts, search and sort order *)

Section TableFacts.

Lemma prefix_nil s : String.prefix EmptyString s = true.
Proof. by destruct s. Qed.

Lemma prefix_refl s : String.prefix s s = true.
Proof.
  induction s as [|c t IH]; [done|]. cbn [String.prefix].
  by destruct (ascii_dec c c).
Qed.

Lemma includes_nil s : Str.includes s EmptyString = true.
Proof. destruct s; cbn [Str.includes]; by rewrite ?prefix_nil. Qed.

Lemma includes_refl s : Str.includes s s = true.
Proof. destruct s as [|c t]; [done|]. cbn [Str.includes]. by rewrite prefix_refl. Qed.

Lemma includes_head c t : Str.includes (String c t) (String c EmptyString) = true.
Proof.
  cbn [Str.includes String.prefix]. destruct (ascii_dec c c); [|done].
  by rewrite prefix_nil.
Qed.

Lemma searchFilter_sublist q fs : searchFilter q fs `sublist_of` fs.
Proof.
  induction fs as [|e fs IH]; cbn [searchFilter List.filter]; [constructor|].
  destruct (searchKeeps q e); by constructor.
Qed.

Lemma searchFilter_all q fs :
  (forall e, e ∈ fs -> searchKeeps q e = true) -> searchFilter q fs = fs.
Proof.
  induction fs as [|e fs IH]; cbn [searchFilter List.filter]; [done|].
  intros H. rewrite (H e) by constructor. f_equal. apply IH.
  intros e' He'. apply H. by constructor.
Qed.

Lemma searchKeeps_empty e : id e ≠ EmptyString -> searchKeeps EmptyString e = true.
Proof.
  unfold searchKeeps. destruct (id e) as [|c t]; [done|]. intros _.
  cbn [toLowerCase]. by rewrite includes_nil.
Qed.

(** The counts of the rows of a part of the catalog add up to the matches
    emitted for that part. *)
Lemma counts_sum fs cs es :
  NoDup (id <$> fs) -> (forall e, e ∈ es -> e ∈ fs) ->
  sum_list (row_NumberOfMatches <$> exportData es (matchFlat fs cs)) =
  length (flat_map (fun e => omap (emitMatch (buildIndex fs) e) cs) es).
Proof.
  intros Hnd. induction es as [|e es IH]; intros Hes; [done|].
  cbn [exportData map fmap list_fmap sum_list flat_map]. rewrite length_app.
  unfold exportData in IH. rewrite IH by (intros e' He'; apply Hes; by constructor).
  f_equal. cbn [exportRow row_NumberOfMatches]. unfold matchFlat.
  rewrite matchesFor_flat; [done | done |]. apply Hes. constructor.
Qed.

Lemma flat_map_length_perm {A B} (g : A -> list B) (l1 l2 : list A) :
  l1 ≡ₚ l2 -> length (flat_map g l1) = length (flat_map g l2).
Proof.
  induction 1 as [|x l1 l2 _ IH|x y l|l1 l2 l3 _ IH1 _ IH2]; cbn [flat_map];
    rewrite ?length_app; lia.
Qed.

End TableFacts.

(** X19. The match counts of the table add up: when the ids of the catalog
    are all different and the table shows the whole catalog, in any order, the
    "Number of Matches" of the exported rows sum to the number of matches of
    the run, and no row counts more matches than there are corrections. *)
Theorem export_counts_add_up (fs ds : list Entry) (cs : list Correction) :
  NoDup (id <$> fs) -> ds ≡ₚ fs ->
  exists rs, matchBatched batchSize fs cs = Some rs /\
    sum_list (row_NumberOfMatches <$> exportData ds rs) = length rs /\
    forall row, row ∈ exportData ds rs -> (row_NumberOfMatches row <= length cs)%nat.
Proof.
  intros Hnd Hperm. exists (matchFlat fs cs). split; [apply matchBatched_code|]. split.
  - rewrite counts_sum by (done || intros e He; by rewrite <- Hperm).
    unfold matchFlat. by apply flat_map_length_perm.
  - intros row Hrow. unfold exportData in Hrow.
    apply list_elem_of_In, in_map_iff in Hrow as (e & <- & He).
    cbn [exportRow row_NumberOfMatches]. unfold matchFlat.
    rewrite matchesFor_flat; [apply omap_length_le | done |].
    rewrite <- Hperm. by apply list_elem_of_In.
Qed.

Lemma export_counts_add_up_witness :
  exists rs,
    matchBatched batchSize [Demo.entry1; Demo.entry2] [mkCorrection zeroFormula] = Some rs /\
    sum_list (row_NumberOfMatches <$> exportData [Demo.entry2; Demo.entry1] rs) = length rs /\
    forall row, row ∈ exportData [Demo.entry2; Demo.entry1] rs ->
                (row_NumberOfMatches row <= length [mkCorrection zeroFormula])%nat.
Proof.
  apply (export_counts_add_up [Demo.entry1; Demo.entry2] [Demo.entry2; Demo.entry1]).
  - cbn. repeat constructor; rewrite ?elem_of_cons, ?elem_of_nil; intros H;
      repeat destruct H as [H|H]; discriminate H || done.
  - apply Permutation_swap.
Defined.

(** X20. The search only hides rows: the filtered catalog is the catalog
    with some entries left out, in the same order; with an empty search text
    every entry with a non-empty id is kept, so in every state the user can
    reach the empty search shows the whole catalog. *)
Theorem search_only_hides (q : string) (fs : list Entry) :
  searchFilter q fs `sublist_of` fs /\
  ((forall e, e ∈ fs -> id e ≠ EmptyString) -> searchFilter EmptyString fs = fs) /\
  (forall actions, searchFilter EmptyString (formulas (run actions)) = formulas (run actions)).
Proof.
  split; [apply searchFilter_sublist|].
  assert (forall l, (forall e, e ∈ l -> id e ≠ EmptyString) ->
                    searchFilter EmptyString l = l) as H.
  { intros l Hl. apply searchFilter_all. intros e He. by apply searchKeeps_empty, Hl. }
  split; [apply H|].
  intros actions. apply H. intros e He.
  pose proof (run_invariant actions) as [Hids _]. by apply Hids.
Qed.

Lemma search_only_hides_witness :
  searchFilter EmptyString [Demo.entry1; Demo.entry2] = [Demo.entry1; Demo.entry2].
Proof.
  apply (search_only_hides EmptyString [Demo.entry1; Demo.entry2]).
  intros e He. rewrite !elem_of_cons, elem_of_nil in He.
  destruct He as [-> | [-> | []]]; discriminate.
Defined.

(** X21. The search does not look at the case of letters and finds an entry
    by its id: two search texts that differ only in case keep the same
    entries, an entry whose id is the search text, case apart, is kept, and
    the one-letter text "c" keeps every entry, since every canonical formula
    starts with C. *)
Theorem search_case_insensitive (q : string) (fs : list Entry) :
  (forall q', toLowerCase q' = toLowerCase q -> searchFilter q' fs = searchFilter q fs) /\
  (forall e, e ∈ fs -> id e ≠ EmptyString -> toLowerCase (id e) = toLowerCase q ->
             e ∈ searchFilter q fs) /\
  (forall e, e ∈ fs -> id e ≠ EmptyString -> e ∈ searchFilter "c" fs).
Proof.
  split; [|split].
  - intros q' Hq. unfold searchFilter. apply List.filter_ext. intros e.
    unfold searchKeeps. by rewrite Hq.
  - intros e He Hid Hq. apply list_elem_of_In, List.filter_In.
    split; [by apply list_elem_of_In|]. unfold searchKeeps.
    destruct (id e) as [|c t] eqn:E; [done|]. by rewrite <- Hq, includes_refl.
  - intros e He Hid. apply list_elem_of_In, List.filter_In.
    split; [by apply list_elem_of_In|]. unfold searchKeeps.
    destruct (id e) as [|c t] eqn:E; [done|]. apply orb_true_iff. right.
    unfold toFormulaString. rewrite str_app_cons. cbn [toLowerCase].
    apply includes_head.
Qed.

Lemma search_case_insensitive_witness :
  Demo.entry2 ∈ searchFilter "2" [Demo.entry1; Demo.entry2] /\
  Demo.entry1 ∈ searchFilter "c" [Demo.entry1; Demo.entry2].
Proof.
  split.
  - apply (search_case_insensitive "2" [Demo.entry1; Demo.entry2]);
      [do 2 constructor | discriminate | reflexivity].
  - apply (search_case_insensitive "2" [Demo.entry1; Demo.entry2]);
      [constructor | discriminate].
Defined.

(** X22. The sort order of a column: a click on a column other than the
    current one sorts by it in ascending order; a click on the current column
    turns the direction round, so the direction after two clicks on a column
    is the opposite of the one after the first, and three clicks give what
    one click gave. *)
Theorem sort_click_toggles (k : string) (cfg : SortConfig) :
  key (handleSort k cfg) = k /\
  (key cfg ≠ k -> direction (handleSort k cfg) = asc) /\
  (key cfg = k -> direction (handleSort k cfg) ≠ direction cfg) /\
  direction (handleSort k (handleSort k cfg)) ≠ direction (handleSort k cfg) /\
  handleSort k (handleSort k (handleSort k cfg)) = handleSort k cfg.
Proof.
  unfold handleSort. cbn [key direction]. rewrite String.eqb_refl.
  destruct (String.eqb (key cfg) k) eqn:E; destruct (direction cfg) eqn:D; cbn;
    repeat split; try done;
    try (intros Hne; apply String.eqb_eq in E; by destruct Hne);
    try (intros Heq; apply String.eqb_neq in E; by destruct E).
Qed.

Lemma sort_click_toggles_witness :
  direction (handleSort "matches" initialSortConfig) = asc /\
  direction (handleSort "id" initialSortConfig) ≠ direction initialSortConfig.
Proof.
  split.
  - apply (sort_click_toggles "matches" initialSortConfig). discriminate.
  - apply (sort_click_toggles "id" initialSortConfig). reflexivity.
Defined.

(** ** Loading without a file, and loading what was written *)

Section CanonicalRowFacts.

Lemma trimStart_noSpace s : noSpace s = true -> Str.trimStart s = s.
Proof.
  destruct s as [|c t]; cbn [noSpace Str.trimStart]; [done|].
  intros H. apply andb_true_iff in H as [H _]. apply negb_true_iff in H. by rewrite H.
Qed.

Lemma trimEnd_noSpace s : noSpace s = true -> Str.trimEnd s = s.
Proof.
  induction s as [|c t IH]; cbn [noSpace Str.trimEnd]; [done|].
  intros H. apply andb_true_iff in H as [Hc Ht]. apply negb_true_iff in Hc.
  rewrite (IH Ht). destruct t; [by rewrite Hc | done].
Qed.

Lemma trim_noSpace s : noSpace s = true -> Str.trim s = s.
Proof. intros H. unfold Str.trim. by rewrite trimStart_noSpace, trimEnd_noSpace. Qed.

Lemma noSpace_app a b : noSpace (a +:+ b) = noSpace a && noSpace b.
Proof.
  induction a as [|c t IH]; [done|]. rewrite str_app_cons. cbn [noSpace].
  by rewrite IH, andb_assoc.
Qed.

Lemma noSpace_digits ds : allDigits ds = true -> noSpace ds = true.
Proof.
  induction ds as [|c t IH]; cbn [allDigits noSpace]; [done|].
  intros H. apply andb_true_iff in H as [Hc Ht].
  by rewrite (isDigit_not_space c Hc), IH.
Qed.

Lemma noSpace_decimal z : noSpace (decimalString z) = true.
Proof.
  destruct (decimalString_numeral z) as (sg & c & ds & -> & Hsg & Hc & Hds).
  rewrite noSpace_app. cbn [noSpace].
  rewrite (isDigit_not_space c Hc), (noSpace_digits ds Hds).
  by destruct Hsg as [-> | ->].
Qed.

Lemma noSpace_fraction m : allDigits m = true -> noSpace (fraction m) = true.
Proof.
  destruct m as [|c t]; [done|]. intros H. cbn [fraction].
  change (noSpace (String "." (String c t)))
    with (negb (isSpace ".") && noSpace (String c t)).
  by rewrite (noSpace_digits (String c t) H).
Qed.

Lemma noSpace_number z : noSpace (numberToString z) = true.
Proof.
  destruct (numberToString_shape z)
    as [[_ ->] | (sg & p & d & m & _ & Hsg & _ & Hd & Hm & ->)];
    [apply noSpace_decimal|].
  rewrite noSpace_app. cbn [noSpace]. rewrite !noSpace_app.
  rewrite (isDigit_not_space d Hd), (noSpace_fraction m Hm), noSpace_decimal.
  by destruct Hsg as [[-> _] | [-> _]].
Qed.

Lemma noSpace_canonical f : noSpace (toFormulaString f) = true.
Proof. unfold toFormulaString. by rewrite !noSpace_app, !noSpace_number. Qed.

Lemma rowToEntry_entryRow e : safeFormula (originalFormula e) -> rowToEntry (entryRow e) = e.
Proof.
  intros Hsafe. unfold rowToEntry, entryRow. rewrite lookup_insert_eq.
  rewrite lookup_insert_ne, lookup_singleton_eq by done. simpl.
  rewrite trim_noSpace by apply noSpace_canonical.
  rewrite parse_toFormulaString by done. by destruct e.
Qed.

Lemma usableRow_entryRow e : id e ≠ EmptyString -> usableRow (entryRow e) = true.
Proof.
  intros Hid. unfold usableRow, entryRow. rewrite lookup_insert_eq.
  rewrite lookup_insert_ne, lookup_singleton_eq by done.
  destruct (id e); [done|]. unfold toFormulaString. by rewrite str_app_cons.
Qed.

End CanonicalRowFacts.

(** X23. A change event without a file leaves the component loading: either
    file handler, called without a file, clears the error, turns the loading
    flag on and changes nothing else, and with the flag on the Apply
    Corrections button is disabled; the same handler called with a file, and
    Reset, always end with the flag off. *)
Theorem no_file_leaves_loading (st : State) :
  handleFormulaFile None st = setIsLoading true (setError None st) /\
  handleCorrectionFile None st = setIsLoading true (setError None st) /\
  applyDisabled (handleFormulaFile None st) = true /\
  applyDisabled (handleCorrectionFile None st) = true /\
  (forall outcome, isLoading (handleFormulaFile (Some outcome) st) = false) /\
  (forall text, isLoading (handleCorrectionFile (Some text) st) = false) /\
  isLoading (resetAll st) = false.
Proof.
  repeat split.
  - unfold applyDisabled. cbn. apply orb_true_r.
  - unfold applyDisabled. cbn. apply orb_true_r.
  - intros [fields data | msg]; unfold handleFormulaFile; [|done].
    destruct (negb (isValid (validateCSVStructure fields))); [done|].
    by destruct (length _ =? 0)%nat.
  - by intros [text | msg].
Qed.

(** X24. A catalog written in canonical form is read back as it was: for a
    non-empty list of entries with non-empty ids whose counts are safe
    integers (magnitude at most 2^53 - 1), loading the file whose headers are
    ID and formulas and whose rows hold the id and the canonical string of
    each entry gives exactly these entries, in order, with no error. *)
Theorem canonical_catalog_round_trip (fs : list Entry) (st : State) :
  fs ≠ [] -> (forall e, e ∈ fs -> id e ≠ EmptyString) ->
  (forall e, e ∈ fs -> safeFormula (originalFormula e)) ->
  let st' := handleFormulaFile (Some (PapaComplete ["ID"; "formulas"] (entryRow <$> fs))) st in
  formulas st' = fs /\ error st' = None /\ isLoading st' = false.
Proof.
  intros Hne Hids Hsafe.
  assert (List.filter usableRow (entryRow <$> fs) = entryRow <$> fs) as Hfilter.
  { clear Hne Hsafe. induction fs as [|e fs IH]; [done|]. cbn [fmap list_fmap List.filter].
    rewrite usableRow_entryRow by (apply Hids; constructor).
    f_equal. apply IH. intros e' He'. apply Hids. by constructor. }
  destruct (load_usable_rows ["ID"; "formulas"] (entryRow <$> fs) st)
    as (Hf & _ & _ & _ & He & Hl); [reflexivity | |].
  { destruct fs as [|e fs']; [done|]. exists (entryRow e).
    split; [constructor|]. apply usableRow_entryRow, Hids. constructor. }
  cbn zeta. rewrite Hf, Hfilter, <- list_fmap_compose. split; [|done].
  clear -Hsafe. induction fs as [|e fs IH]; [done|]. cbn [fmap list_fmap compose].
  rewrite rowToEntry_entryRow by (apply Hsafe; constructor).
  f_equal. apply IH. intros e' He'. apply Hsafe. by constructor.
Qed.

Lemma canonical_catalog_round_trip_witness :
  formulas (handleFormulaFile
              (Some (PapaComplete ["ID"; "formulas"]
                       (entryRow <$> [Demo.entry1; mkEntry "x" (mkFormula 2 (-1) 0 0 0 0 3)])))
              initialState) =
  [Demo.entry1; mkEntry "x" (mkFormula 2 (-1) 0 0 0 0 3)].
Proof.
  apply (canonical_catalog_round_trip
           [Demo.entry1; mkEntry "x" (mkFormula 2 (-1) 0 0 0 0 3)] initialState).
  - discriminate.
  - intros e He. rewrite !elem_of_cons, elem_of_nil in He.
    destruct He as [-> | [-> | []]]; discriminate.
  - intros e He. rewrite !elem_of_cons, elem_of_nil in He.
    destruct He as [-> | [-> | []]];
      unfold safeFormula, isSafeInteger, maxSafeInteger; cbn; lia.
Defined.
